(** * awsweeper: the resource filter and the registry of supported types

    A shallow embedding of [resource/filter.go] (the filter that decides
    which resources are selected) and of the registry [Supported] /
    [getSupported], followed by the properties of the matching engine,
    the validator and the registry. *)

From stdpp Require Import gmap strings list fin_maps.
From Stdlib Require Import Ascii.

(** ** Go values *)

(** A Go [error] value is represented by its message. *)
Definition error := string.

(** [log.Fatal] ends the process, and so does a run-time panic (the
    dereference of a nil pointer): a computation returns, or dies with the
    error it logs, or panics. *)
Inductive result (A : Type) : Type :=
  | Ret (a : A)
  | Fatal (e : error)
  | Panic.
Arguments Ret {A} a.
Arguments Fatal {A} e.
Arguments Panic {A}.

#[global] Instance result_bind : MBind result := λ A B k m,
  match m with
  | Ret a => k a
  | Fatal e => Fatal e
  | Panic => Panic
  end.

(** [time.Time], as an instant on the time line. *)
Definition Time := Z.

(** ** The regular expression package

    [regexp.MatchString(pattern, s)] of Go's standard library returns
    [(matched, err)].  It compiles the pattern first and returns
    [(false, err)] when that fails, so a [true] verdict always comes with a
    nil error; this is all the filter relies on. *)
Class Regexp := {
  MatchString : string → string → bool * option error;
  MatchString_matched_nil :
    ∀ pattern s, (MatchString pattern s).1 = true → (MatchString pattern s).2 = None
}.

(** ** A model of the package for a fragment of its syntax

    The examples of the filter need a concrete engine.  [RE] models
    [regexp.MatchString] for the patterns built from literal characters, [.],
    [^], [$], [*], [+], [?] (also in their lazy forms), [|], capturing groups
    and escaped punctuation, over ASCII text, with the flags [regexp.Compile]
    uses ([syntax.Perl]: [^] and [$] are the ends of the text, [.] does not
    match a newline).  Everything else is reported as outside the fragment. *)
Module RE.

Inductive regex : Type :=
  | EmptyMatch
  | Literal (c : ascii)
  | AnyCharNotNL
  | BeginText
  | EndText
  | Concat (r1 r2 : regex)
  | Alternate (r1 r2 : regex)
  | Star (r : regex)
  | Plus (r : regex)
  | Quest (r : regex)
  | Capture (r : regex).

Definition newline : ascii := ascii_of_nat 10.

(** *** What a match is

    [matches re u w v]: in the text [u ++ w ++ v], the piece [w] that
    follows [u] is a match of [re]. *)
Inductive matches : regex → list ascii → list ascii → list ascii → Prop :=
  | M_EmptyMatch u v : matches EmptyMatch u [] v
  | M_Literal c u v : matches (Literal c) u [c] v
  | M_AnyCharNotNL c u v : c ≠ newline → matches AnyCharNotNL u [c] v
  | M_BeginText v : matches BeginText [] [] v
  | M_EndText u : matches EndText u [] []
  | M_Concat r1 r2 u w1 w2 v :
      matches r1 u w1 (w2 ++ v) → matches r2 (u ++ w1) w2 v →
      matches (Concat r1 r2) u (w1 ++ w2) v
  | M_Alternate_l r1 r2 u w v : matches r1 u w v → matches (Alternate r1 r2) u w v
  | M_Alternate_r r1 r2 u w v : matches r2 u w v → matches (Alternate r1 r2) u w v
  | M_Star_nil r u v : matches (Star r) u [] v
  | M_Star_cons r u w1 w2 v :
      w1 ≠ [] →
      matches r u w1 (w2 ++ v) → matches (Star r) (u ++ w1) w2 v →
      matches (Star r) u (w1 ++ w2) v
  | M_Plus r u w1 w2 v :
      matches r u w1 (w2 ++ v) → matches (Star r) (u ++ w1) w2 v →
      matches (Plus r) u (w1 ++ w2) v
  | M_Quest_some r u w v : matches r u w v → matches (Quest r) u w v
  | M_Quest_none r u v : matches (Quest r) u [] v
  | M_Capture r u w v : matches r u w v → matches (Capture r) u w v.

(** *** The matcher

    A backtracking matcher in continuation style: [run re u s k] tries to
    match [re] at the front of [s], with [u] the text already passed, and
    hands what is left to [k]. *)
Definition cont := list ascii → list ascii → bool.

(** Iterations of a starred expression; one that consumes nothing is not
    repeated, so the length of the text bounds their number. *)
Fixpoint star (step : list ascii → list ascii → cont → bool)
    (n : nat) (u s : list ascii) (k : cont) : bool :=
  k u s ||
  match n with
  | 0 => false
  | S n' =>
      step u s (λ u' s', (length s' <? length s) && star step n' u' s' k)
  end.

Fixpoint run (re : regex) (u s : list ascii) (k : cont) : bool :=
  match re with
  | EmptyMatch => k u s
  | Literal c =>
      match s with
      | a :: s' => if decide (a = c) then k (u ++ [a]) s' else false
      | [] => false
      end
  | AnyCharNotNL =>
      match s with
      | a :: s' => if decide (a = newline) then false else k (u ++ [a]) s'
      | [] => false
      end
  | BeginText => match u with [] => k u s | _ => false end
  | EndText => match s with [] => k u s | _ => false end
  | Concat r1 r2 => run r1 u s (λ u' s', run r2 u' s' k)
  | Alternate r1 r2 => run r1 u s k || run r2 u s k
  | Star r => star (run r) (length s) u s k
  | Plus r => run r u s (λ u' s', star (run r) (length s') u' s' k)
  | Quest r => run r u s k || k u s
  | Capture r => run r u s k
  end.

(** An unanchored search: a match may start at any position of the text. *)
Fixpoint search (re : regex) (u s : list ascii) : bool :=
  run re u s (λ _ _, true) ||
  match s with
  | [] => false
  | a :: s' => search re (u ++ [a]) s'
  end.

(** *** The parser

    [regexp/syntax] parses with a stack of pending expressions; the frames
    below are the part of that stack between two open parentheses. *)

(** The [ErrorCode]s of [regexp/syntax] the fragment can meet; an error of
    the package is represented by its code. *)
Definition ErrMissingParen : error := "missing closing )".
Definition ErrUnexpectedParen : error := "unexpected )".
Definition ErrMissingRepeatArgument : error :=
  "missing argument to repetition operator".
Definition ErrInvalidRepeatOp : error := "invalid nested repetition operator".
Definition ErrTrailingBackslash : error :=
  "trailing backslash at end of expression".

Inductive parsed (A : Type) : Type :=
  | Parsed (a : A)
  | SyntaxError (code : error)
  | OutsideFragment.
Arguments Parsed {A} a.
Arguments SyntaxError {A} code.
Arguments OutsideFragment {A}.

Definition isASCII (c : ascii) : bool := nat_of_ascii c <? 128.

Definition isalnum (c : ascii) : bool :=
  let n := nat_of_ascii c in
  (48 <=? n) && (n <=? 57) || (65 <=? n) && (n <=? 90) ||
  (97 <=? n) && (n <=? 122).

(** The branches of an alternation that are complete and the pieces of the
    branch in progress, both latest first. *)
Record frame := { branches : list regex; pieces : list regex }.

Definition emptyFrame : frame := {| branches := []; pieces := [] |}.

Fixpoint concatOf (rs : list regex) : regex :=
  match rs with
  | [] => EmptyMatch
  | [r] => r
  | r :: rs' => Concat r (concatOf rs')
  end.

Fixpoint alternateOf (rs : list regex) : regex :=
  match rs with
  | [] => EmptyMatch
  | [r] => r
  | r :: rs' => Alternate r (alternateOf rs')
  end.

Definition push (r : regex) (f : frame) : frame :=
  {| branches := branches f; pieces := r :: pieces f |}.

Definition verticalBar (f : frame) : frame :=
  {| branches := concatOf (rev (pieces f)) :: branches f; pieces := [] |}.

Definition collapse (f : frame) : regex :=
  alternateOf (rev (branches (verticalBar f))).

(** A repetition operator applies to the piece before it; it may not
    follow another one. *)
Definition repeat (op : regex → regex) (lastRepeat : bool) (f : frame)
  : parsed frame :=
  if lastRepeat then SyntaxError ErrInvalidRepeatOp
  else match pieces f with
       | [] => SyntaxError ErrMissingRepeatArgument
       | r :: rs => Parsed {| branches := branches f; pieces := op r :: rs |}
       end.

Definition repeatOp (c : ascii) : option (regex → regex) :=
  match c with
  | "*"%char => Some Star
  | "+"%char => Some Plus
  | "?"%char => Some Quest
  | _ => None
  end.

(** Groups nested deeper than this are left outside the fragment (the
    package refuses expressions that nest too deeply). *)
Definition maxGroups : nat := 100.

Fixpoint parseLoop (t : list ascii) (cur : frame) (outer : list frame)
    (lastRepeat : bool) : parsed regex :=
  match t with
  | [] =>
      match outer with
      | [] => Parsed (collapse cur)
      | _ :: _ => SyntaxError ErrMissingParen
      end
  | c :: t' =>
      match repeatOp c with
      | Some op =>
          match repeat op lastRepeat cur with
          | Parsed cur' =>
              match t' with
              | "?"%char :: t'' => parseLoop t'' cur' outer true
              | _ => parseLoop t' cur' outer true
              end
          | SyntaxError code => SyntaxError code
          | OutsideFragment => OutsideFragment
          end
      | None =>
          match c with
          | "("%char =>
              match t' with
              | "?"%char :: _ => OutsideFragment
              | _ =>
                  if maxGroups <=? length outer then OutsideFragment
                  else parseLoop t' emptyFrame (cur :: outer) false
              end
          | "|"%char => parseLoop t' (verticalBar cur) outer false
          | ")"%char =>
              match outer with
              | [] => SyntaxError ErrUnexpectedParen
              | f :: outer' =>
                  parseLoop t' (push (Capture (collapse cur)) f) outer' false
              end
          | "^"%char => parseLoop t' (push BeginText cur) outer false
          | "$"%char => parseLoop t' (push EndText cur) outer false
          | "."%char => parseLoop t' (push AnyCharNotNL cur) outer false
          | "["%char | "{"%char => OutsideFragment
          | "\"%char =>
              match t' with
              | [] => SyntaxError ErrTrailingBackslash
              | e :: t'' =>
                  if isalnum e then OutsideFragment
                  else parseLoop t'' (push (Literal e) cur) outer false
              end
          | _ => parseLoop t' (push (Literal c) cur) outer false
          end
      end
  end.

(** Longer patterns are left outside the fragment (the package refuses
    expressions that are too large). *)
Definition maxPattern : nat := 1000.

(** [regexp.Compile], for patterns of ASCII characters. *)
Definition Compile (expr : string) : parsed regex :=
  let t := String.list_ascii_of_string expr in
  if forallb isASCII t && (length t <=? maxPattern)
  then parseLoop t emptyFrame [] false
  else OutsideFragment.

(** [regexp.MatchString]; [None] when the pattern or the text is outside
    the fragment. *)
Definition goMatchString (pattern s : string) : option (bool * option error) :=
  match Compile pattern with
  | Parsed re =>
      let text := String.list_ascii_of_string s in
      if forallb isASCII text then Some (search re [] text, None) else None
  | SyntaxError code => Some (false, Some code)
  | OutsideFragment => None
  end.

Definition errOutside : error := "outside the modelled fragment".

Definition fragmentMatchString (pattern s : string) : bool * option error :=
  default (false, Some errOutside) (goMatchString pattern s).

(** *** Notions used to state that the matcher is right *)

(** A step that succeeds still succeeds with a continuation that accepts more. *)
Definition monotone (step : list ascii → list ascii → cont → bool) : Prop :=
  ∀ u s (k1 k2 : cont),
    (∀ u' s', k1 u' s' = true → k2 u' s' = true) →
    step u s k1 = true → step u s k2 = true.

(** What a step accepts is a match of [re]. *)
Definition sound (step : list ascii → list ascii → cont → bool)
    (re : regex) : Prop :=
  ∀ u s (k : cont), step u s k = true →
    ∃ w v, s = w ++ v ∧ matches re u w v ∧ k (u ++ w) v = true.

(** The expressions without [^] and [$]. *)
Fixpoint anchorFree (re : regex) : bool :=
  match re with
  | BeginText | EndText => false
  | EmptyMatch | Literal _ | AnyCharNotNL => true
  | Concat r1 r2 | Alternate r1 r2 => anchorFree r1 && anchorFree r2
  | Star r | Plus r | Quest r | Capture r => anchorFree r
  end.

End RE.

(** The model of the fragment, as an engine, for the examples: they use it
    on patterns and texts of the fragment only.  Outside the fragment its
    answer, an error, is a placeholder and says nothing about the package. *)
Definition goFragment : Regexp.
Proof.
  refine {| MatchString := RE.fragmentMatchString |}.
  intros pattern s. unfold RE.fragmentMatchString, RE.goMatchString.
  destruct (RE.Compile pattern); simpl; try done.
  by destruct (forallb _ _).
Defined.

(** ** The registry of supported resource types *)

(** [sts.GetCallerIdentityOutput]; [Account] is a pointer to a string. *)
Record GetCallerIdentityOutput := { Account : option string }.

(** A connection to a service: an interface value that is set, known by
    its identity. *)
Definition conn := nat.

(** A method value [c.Conn.Method]: the method, bound to the connection it
    is taken from. *)
Record methodValue := { receiver : conn; method : string }.

(** [AWSClient] holds the connections to the services, all of them set.
    Building the registry calls one of them, [STSconn.GetCallerIdentity]:
    the STS connection is represented by the answer [(res, err)] of that
    call.  The other connections are only referred to, by the method values
    stored in the descriptors. *)
Record AWSClient := {
  EC2conn : conn;
  ASconn : conn;
  ELBconn : conn;
  R53conn : conn;
  CFconn : conn;
  EFSconn : conn;
  IAMconn : conn;
  KMSconn : conn;
  S3conn : conn;
  GetCallerIdentity : GetCallerIdentityOutput * option error
}.

(** [ec2.Filter]. *)
Record ec2Filter := { Name : option string; Values : list (option string) }.

(** The field of a describe input that carries filters, when one is set:
    [Filters], or [Filter] for the NAT gateways. *)
Inductive inputFilters : Type :=
  | NoFilter
  | inFilters (fs : list ec2Filter)
  | inFilter (fs : list ec2Filter).

(** A describe input: the struct type and the filters it is built with. *)
Inductive describeInput : Type :=
  | Input (type : string) (filters : inputFilters).

(** The selection functions a descriptor can refer to. *)
Inductive selectFn : Type :=
  | filterGeneric
  | filterEfsFileSystem
  | filterIamPolicy
  | filterIamUser
  | filterKmsKeys.

(** [APIDesc]; [Describe] holds a method value of a connection of the
    client; [nil] is [None]. *)
Record APIDesc := {
  TerraformType : string;
  DescribeOutputName : list string;
  DeleteID : string;
  Describe : option methodValue;
  DescribeInput : option describeInput;
  Select : option selectFn
}.

(** The zero value [APIDesc{}]. *)
Definition zeroAPIDesc : APIDesc :=
  {| TerraformType := ""; DescribeOutputName := []; DeleteID := "";
     Describe := None; DescribeInput := None; Select := None |}.

Definition accountID (c : AWSClient) : result (option string) :=
  let '(res, err) := GetCallerIdentity c in
  match err with
  | Some e => Fatal e
  | None => Ret (Account res)
  end.

(** [Supported]; the two calls of [accountID] are made while the list is
    built, the one for the snapshots first. *)
Definition Supported (c : AWSClient) : result (list APIDesc) :=
  snapshotOwner ← accountID c;
  imageOwner ← accountID c;
  Ret [
      {| TerraformType := "aws_autoscaling_group";
         DescribeOutputName := ["AutoScalingGroups"];
         DeleteID := "AutoScalingGroupName";
         Describe :=
           Some {| receiver := ASconn c; method := "DescribeAutoScalingGroups" |};
         DescribeInput :=
           Some (Input "autoscaling.DescribeAutoScalingGroupsInput" NoFilter);
         Select := Some filterGeneric |};
      {| TerraformType := "aws_launch_configuration";
         DescribeOutputName := ["LaunchConfigurations"];
         DeleteID := "LaunchConfigurationName";
         Describe :=
           Some {| receiver := ASconn c; method := "DescribeLaunchConfigurations" |};
         DescribeInput :=
           Some (Input "autoscaling.DescribeLaunchConfigurationsInput" NoFilter);
         Select := Some filterGeneric |};
      {| TerraformType := "aws_instance";
         DescribeOutputName := ["Reservations"; "Instances"];
         DeleteID := "InstanceId";
         Describe :=
           Some {| receiver := EC2conn c; method := "DescribeInstances" |};
         DescribeInput :=
           Some (Input "ec2.DescribeInstancesInput"
                (inFilters
                   [ {| Name := Some "instance-state-name";
                        Values := [Some "pending"; Some "running"; Some "stopping";
                                   Some "stopped"] |} ]));
         Select := Some filterGeneric |};
      {| TerraformType := "aws_key_pair";
         DescribeOutputName := ["KeyPairs"];
         DeleteID := "KeyName";
         Describe :=
           Some {| receiver := EC2conn c; method := "DescribeKeyPairs" |};
         DescribeInput :=
           Some (Input "ec2.DescribeKeyPairsInput" NoFilter);
         Select := Some filterGeneric |};
      {| TerraformType := "aws_elb";
         DescribeOutputName := ["LoadBalancerDescriptions"];
         DeleteID := "LoadBalancerName";
         Describe :=
           Some {| receiver := ELBconn c; method := "DescribeLoadBalancers" |};
         DescribeInput :=
           Some (Input "elb.DescribeLoadBalancersInput" NoFilter);
         Select := Some filterGeneric |};
      {| TerraformType := "aws_vpc_endpoint";
         DescribeOutputName := ["VpcEndpoints"];
         DeleteID := "VpcEndpointId";
         Describe :=
           Some {| receiver := EC2conn c; method := "DescribeVpcEndpoints" |};
         DescribeInput :=
           Some (Input "ec2.DescribeVpcEndpointsInput" NoFilter);
         Select := Some filterGeneric |};
      {| TerraformType := "aws_nat_gateway";
         DescribeOutputName := ["NatGateways"];
         DeleteID := "NatGatewayId";
         Describe :=
           Some {| receiver := EC2conn c; method := "DescribeNatGateways" |};
         DescribeInput :=
           Some (Input "ec2.DescribeNatGatewaysInput"
                (inFilter
                   [ {| Name := Some "state";
                        Values := [Some "available"] |} ]));
         Select := Some filterGeneric |};
      {| TerraformType := "aws_cloudformation_stack";
         DescribeOutputName := ["Stacks"];
         DeleteID := "StackId";
         Describe :=
           Some {| receiver := CFconn c; method := "DescribeStacks" |};
         DescribeInput :=
           Some (Input "cloudformation.DescribeStacksInput" NoFilter);
         Select := Some filterGeneric |};
      {| TerraformType := "aws_route53_zone";
         DescribeOutputName := ["HostedZones"];
         DeleteID := "Id";
         Describe :=
           Some {| receiver := R53conn c; method := "ListHostedZones" |};
         DescribeInput :=
           Some (Input "route53.ListHostedZonesInput" NoFilter);
         Select := Some filterGeneric |};
      {| TerraformType := "aws_efs_file_system";
         DescribeOutputName := ["FileSystems"];
         DeleteID := "FileSystemId";
         Describe :=
           Some {| receiver := EFSconn c; method := "DescribeFileSystems" |};
         DescribeInput :=
           Some (Input "efs.DescribeFileSystemsInput" NoFilter);
         Select := Some filterEfsFileSystem |};
      {| TerraformType := "aws_network_interface";
         DescribeOutputName := ["NetworkInterfaces"];
         DeleteID := "NetworkInterfaceId";
         Describe :=
           Some {| receiver := EC2conn c; method := "DescribeNetworkInterfaces" |};
         DescribeInput :=
           Some (Input "ec2.DescribeNetworkInterfacesInput" NoFilter);
         Select := Some filterGeneric |};
      {| TerraformType := "aws_eip";
         DescribeOutputName := ["Addresses"];
         DeleteID := "AllocationId";
         Describe :=
           Some {| receiver := EC2conn c; method := "DescribeAddresses" |};
         DescribeInput :=
           Some (Input "ec2.DescribeAddressesInput" NoFilter);
         Select := Some filterGeneric |};
      {| TerraformType := "aws_internet_gateway";
         DescribeOutputName := ["InternetGateways"];
         DeleteID := "InternetGatewayId";
         Describe :=
           Some {| receiver := EC2conn c; method := "DescribeInternetGateways" |};
         DescribeInput :=
           Some (Input "ec2.DescribeInternetGatewaysInput" NoFilter);
         Select := Some filterGeneric |};
      {| TerraformType := "aws_subnet";
         DescribeOutputName := ["Subnets"];
         DeleteID := "SubnetId";
         Describe :=
           Some {| receiver := EC2conn c; method := "DescribeSubnets" |};
         DescribeInput :=
           Some (Input "ec2.DescribeSubnetsInput" NoFilter);
         Select := Some filterGeneric |};
      {| TerraformType := "aws_route_table";
         DescribeOutputName := ["RouteTables"];
         DeleteID := "RouteTableId";
         Describe :=
           Some {| receiver := EC2conn c; method := "DescribeRouteTables" |};
         DescribeInput :=
           Some (Input "ec2.DescribeRouteTablesInput" NoFilter);
         Select := Some filterGeneric |};
      {| TerraformType := "aws_security_group";
         DescribeOutputName := ["SecurityGroups"];
         DeleteID := "GroupId";
         Describe :=
           Some {| receiver := EC2conn c; method := "DescribeSecurityGroups" |};
         DescribeInput :=
           Some (Input "ec2.DescribeSecurityGroupsInput" NoFilter);
         Select := Some filterGeneric |};
      {| TerraformType := "aws_network_acl";
         DescribeOutputName := ["NetworkAcls"];
         DeleteID := "NetworkAclId";
         Describe :=
           Some {| receiver := EC2conn c; method := "DescribeNetworkAcls" |};
         DescribeInput :=
           Some (Input "ec2.DescribeNetworkAclsInput" NoFilter);
         Select := Some filterGeneric |};
      {| TerraformType := "aws_vpc";
         DescribeOutputName := ["Vpcs"];
         DeleteID := "VpcId";
         Describe :=
           Some {| receiver := EC2conn c; method := "DescribeVpcs" |};
         DescribeInput :=
           Some (Input "ec2.DescribeVpcsInput" NoFilter);
         Select := Some filterGeneric |};
      {| TerraformType := "aws_iam_policy";
         DescribeOutputName := ["Policies"];
         DeleteID := "Arn";
         Describe :=
           Some {| receiver := IAMconn c; method := "ListPolicies" |};
         DescribeInput :=
           Some (Input "iam.ListPoliciesInput" NoFilter);
         Select := Some filterIamPolicy |};
      {| TerraformType := "aws_iam_group";
         DescribeOutputName := ["Groups"];
         DeleteID := "GroupName";
         Describe :=
           Some {| receiver := IAMconn c; method := "ListGroups" |};
         DescribeInput :=
           Some (Input "iam.ListGroupsInput" NoFilter);
         Select := Some filterGeneric |};
      {| TerraformType := "aws_iam_user";
         DescribeOutputName := ["Users"];
         DeleteID := "UserName";
         Describe :=
           Some {| receiver := IAMconn c; method := "ListUsers" |};
         DescribeInput :=
           Some (Input "iam.ListUsersInput" NoFilter);
         Select := Some filterIamUser |};
      {| TerraformType := "aws_iam_role";
         DescribeOutputName := ["Roles"];
         DeleteID := "RoleName";
         Describe :=
           Some {| receiver := IAMconn c; method := "ListRoles" |};
         DescribeInput :=
           Some (Input "iam.ListRolesInput" NoFilter);
         Select := Some filterGeneric |};
      {| TerraformType := "aws_iam_instance_profile";
         DescribeOutputName := ["InstanceProfiles"];
         DeleteID := "InstanceProfileName";
         Describe :=
           Some {| receiver := IAMconn c; method := "ListInstanceProfiles" |};
         DescribeInput :=
           Some (Input "iam.ListInstanceProfilesInput" NoFilter);
         Select := Some filterGeneric |};
      {| TerraformType := "aws_kms_alias";
         DescribeOutputName := ["Aliases"];
         DeleteID := "AliasName";
         Describe :=
           Some {| receiver := KMSconn c; method := "ListAliases" |};
         DescribeInput :=
           Some (Input "kms.ListAliasesInput" NoFilter);
         Select := Some filterGeneric |};
      {| TerraformType := "aws_kms_key";
         DescribeOutputName := ["Keys"];
         DeleteID := "KeyId";
         Describe :=
           Some {| receiver := KMSconn c; method := "ListKeys" |};
         DescribeInput :=
           Some (Input "kms.ListKeysInput" NoFilter);
         Select := Some filterKmsKeys |};
      {| TerraformType := "aws_s3_bucket";
         DescribeOutputName := ["Buckets"];
         DeleteID := "Name";
         Describe :=
           Some {| receiver := S3conn c; method := "ListBuckets" |};
         DescribeInput :=
           Some (Input "s3.ListBucketsInput" NoFilter);
         Select := Some filterGeneric |};
      {| TerraformType := "aws_ebs_snapshot";
         DescribeOutputName := ["Snapshots"];
         DeleteID := "SnapshotId";
         Describe :=
           Some {| receiver := EC2conn c; method := "DescribeSnapshots" |};
         DescribeInput :=
           Some (Input "ec2.DescribeSnapshotsInput"
                (inFilters
                   [ {| Name := Some "owner-id";
                        Values := [snapshotOwner] |} ]));
         Select := Some filterGeneric |};
      {| TerraformType := "aws_ebs_volume";
         DescribeOutputName := ["Volumes"];
         DeleteID := "VolumeId";
         Describe :=
           Some {| receiver := EC2conn c; method := "DescribeVolumes" |};
         DescribeInput :=
           Some (Input "ec2.DescribeVolumesInput" NoFilter);
         Select := Some filterGeneric |};
      {| TerraformType := "aws_ami";
         DescribeOutputName := ["Images"];
         DeleteID := "ImageId";
         Describe :=
           Some {| receiver := EC2conn c; method := "DescribeImages" |};
         DescribeInput :=
           Some (Input "ec2.DescribeImagesInput"
                (inFilters
                   [ {| Name := Some "owner-id";
                        Values := [imageOwner] |} ]));
         Select := Some filterGeneric |}
  ].

Definition errNoAPIDesc (resType : string) : error :=
  "no APIDesc found for resource type " +:+ resType.

(** The loop of [getSupported]. *)
Fixpoint getSupported_range (descs : list APIDesc) (resType : string)
  : APIDesc * option error :=
  match descs with
  | [] => (zeroAPIDesc, Some (errNoAPIDesc resType))
  | apiDesc :: rest =>
      if decide (TerraformType apiDesc = resType) then (apiDesc, None)
      else getSupported_range rest resType
  end.

Definition getSupported (resType : string) (c : AWSClient)
  : result (APIDesc * option error) :=
  descs ← Supported c;
  Ret (getSupported_range descs resType).

(** ** filter.go *)

Record Created := {
  Before : Time;
  After : Time
}.

(** [configEntry]: [Ids] is a slice of pointers to strings; a nil pointer
    (what the yaml decoder gives for a null item) is [None].  A nil and an
    empty slice, and a nil and an empty map, are the same for [len].  The
    field [Created] is [created] here. *)
Record configEntry := {
  Ids : list (option string);
  Tags : gmap string string;
  created : Created
}.

(** The zero value of [configEntry], which a lookup of a missing key gives. *)
Definition zeroEntry : configEntry :=
  {| Ids := []; Tags := ∅; created := {| Before := 0%Z; After := 0%Z |} |}.

Abbreviation Config := (gmap string configEntry).

(** [Filter] is a struct with the single field [cfg]. *)
Record Filter := { cfg : Config }.

(** [FilterableResource], with [Type_] for the field [Type] and [rTags] for
    the field [Tags]; a nil [Tags] map is [None]. *)
Record FilterableResource := {
  Type_ : string;
  ID : string;
  rTags : option (gmap string string)
}.

(** [f.cfg[resource.Type]] with the presence flag dropped. *)
Definition cfgEntryOf (f : Filter) (resource : FilterableResource) : configEntry :=
  default zeroEntry (cfg f !! Type_ resource).

(** [resource.Tags[key]]: reading a nil map finds nothing. *)
Definition tagLookup (resource : FilterableResource) (key : string) : option string :=
  m ← rTags resource; m !! key.

(** [ResourceTypes]: the keys of the config, in the order of the range. *)
Definition ResourceTypes (f : Filter) : list string :=
  (map_to_list (cfg f)).*1.

Definition errNoIDs : error := "no entries set in filter to match IDs".
Definition errNoTags : error := "filter has no tag entries for resource type".

Section filter.
Context `{Regexp}.

(** The loop [for _, regex := range cfgEntry.Ids] of [matchID]; [*regex]
    panics when [regex] is a nil pointer. *)
Fixpoint matchID_range (ids : list (option string)) (id : string)
  : result (bool * option error) :=
  match ids with
  | [] => Ret (false, None)
  | None :: _ => Panic
  | Some regex :: rest =>
      let '(ok, err) := MatchString regex id in
      if ok then
        match err with
        | Some e => Fatal e
        | None => Ret (true, None)
        end
      else matchID_range rest id
  end.

Definition matchID (f : Filter) (resource : FilterableResource)
  : result (bool * option error) :=
  let cfgEntry := cfgEntryOf f resource in
  if decide (length (Ids cfgEntry) = 0) then Ret (false, Some errNoIDs)
  else matchID_range (Ids cfgEntry) (ID resource).

(** The loop [for cfgTagKey, regex := range cfgEntry.Tags] of [matchTags],
    over the pairs in the order the range visits them. *)
Fixpoint matchTags_range (kvs : list (string * string))
    (resource : FilterableResource) : result (bool * option error) :=
  match kvs with
  | [] => Ret (false, None)
  | (cfgTagKey, regex) :: rest =>
      match tagLookup resource cfgTagKey with
      | Some tagVal =>
          let '(res, err) := MatchString regex tagVal in
          if res then
            match err with
            | Some e => Fatal e
            | None => Ret (true, None)
            end
          else matchTags_range rest resource
      | None => matchTags_range rest resource
      end
  end.

Definition matchTags (f : Filter) (resource : FilterableResource)
  : result (bool * option error) :=
  let cfgEntry := cfgEntryOf f resource in
  if decide (size (Tags cfgEntry) = 0) then Ret (false, Some errNoTags)
  else matchTags_range (map_to_list (Tags cfgEntry)) resource.

Definition Matches (f : Filter) (resource : FilterableResource) : result bool :=
  '(matchesTags, errTags) ←
    (if rTags resource is Some _ then matchTags f resource
     else Ret (false, None));
  '(matchesID, errID) ← matchID f resource;
  if bool_decide (errID ≠ None) && bool_decide (errTags ≠ None) then Ret true
  else Ret (matchesID || matchesTags).
End filter.

(** *** Validate *)

Definition errUnsupported (resType : string) : error :=
  "found unsupported resource type '" +:+ resType +:+ "' in config file".

(** The inner loop of [Validate]: it runs over the whole registry and keeps
    the flag once it is set. *)
Fixpoint isTerraformType_range (descs : list APIDesc) (resType : string)
    (isTerraformType : bool) : bool :=
  match descs with
  | [] => isTerraformType
  | a :: rest =>
      isTerraformType_range rest resType
        (if decide (resType = TerraformType a) then true else isTerraformType)
  end.

(** The outer loop of [Validate], over the resource types of the config. *)
Fixpoint Validate_range (descs : list APIDesc) (resTypes : list string)
  : option error :=
  match resTypes with
  | [] => None
  | resType :: rest =>
      if negb (isTerraformType_range descs resType false)
      then Some (errUnsupported resType)
      else Validate_range descs rest
  end.

Definition Validate (f : Filter) (c : AWSClient) : result (option error) :=
  descs ← Supported c;
  Ret (Validate_range descs (ResourceTypes f)).

(** ** Notions used in the statements *)

Section criteria.
Context `{Regexp}.

(** Some configured id pattern matches the id. *)
Definition someIdMatches (e : configEntry) (id : string) : Prop :=
  ∃ regex, Some regex ∈ Ids e ∧ (MatchString regex id).1 = true.

(** In the list of id patterns a null entry comes before every pattern that
    matches the id: the loop of [matchID] reaches the null entry. *)
Definition nullBeforeMatch (ids : list (option string)) (id : string) : Prop :=
  ∃ pre rest, ids = pre ++ None :: rest ∧
    ∀ regex, Some regex ∈ pre → (MatchString regex id).1 = false.

Fixpoint nullReached (ids : list (option string)) (id : string) : bool :=
  match ids with
  | [] => false
  | None :: _ => true
  | Some regex :: rest =>
      if (MatchString regex id).1 then false else nullReached rest id
  end.

(** Some configured tag key is a key of [tags], with a value that matches
    the pattern configured for the key. *)
Definition someTagMatches (e : configEntry) (tags : gmap string string) : Prop :=
  ∃ key regex tagVal,
    Tags e !! key = Some regex ∧ tags !! key = Some tagVal ∧
    (MatchString regex tagVal).1 = true.

Definition idVerdict (ids : list (option string)) (id : string) : bool :=
  existsb (λ entry, if entry is Some regex then (MatchString regex id).1
                    else false) ids.

Definition tagVerdict (kvs : list (string * string))
    (resource : FilterableResource) : bool :=
  existsb (λ kv, if tagLookup resource kv.1 is Some tagVal
                 then (MatchString kv.2 tagVal).1 else false) kvs.
(** What [Matches] returns when it does not panic: the two loops replaced
    by their verdicts. *)
Definition selects (e : configEntry) (resource : FilterableResource) : bool :=
  match rTags resource with
  | Some _ =>
      if decide (Ids e = []) then
        if decide (Tags e = ∅) then true
        else tagVerdict (map_to_list (Tags e)) resource
      else
        idVerdict (Ids e) (ID resource) ||
        (if decide (Tags e = ∅) then false
         else tagVerdict (map_to_list (Tags e)) resource)
  | None =>
      if decide (Ids e = []) then false
      else idVerdict (Ids e) (ID resource)
  end.

End criteria.

(** [resType] is the type of some descriptor of the list. *)
Definition supportedType (descs : list APIDesc) (resType : string) : Prop :=
  ∃ a, a ∈ descs ∧ TerraformType a = resType.

(** ** The filter of the tests *)

Definition securityGroupType : string := "aws_security_group".
Definition iamRoleType : string := "aws_iam_role".
Definition instanceType : string := "aws_instance".
Definition vpc : string := "aws_vpc".

Definition noCreated : Created := {| Before := 0%Z; After := 0%Z |}.

Definition iamRoleEntry : configEntry :=
  {| Ids := [Some "^foo.*"]; Tags := ∅; created := noCreated |}.
Definition instanceEntry : configEntry :=
  {| Ids := []; Tags := {[ "foo" := "bar"; "bla" := "blub" ]};
     created := noCreated |}.
Definition vpcEntry : configEntry :=
  {| Ids := [Some "^foo.*"]; Tags := {[ "foo" := "bar" ]};
     created := noCreated |}.

Definition yml : Config :=
  {[ iamRoleType := iamRoleEntry;
     securityGroupType := zeroEntry;
     instanceType := instanceEntry;
     vpc := vpcEntry ]}.

Definition f : Filter := {| cfg := yml |}.

Definition filterable (type id : string) (tags : option (gmap string string))
  : FilterableResource :=
  {| Type_ := type; ID := id; rTags := tags |}.

Definition taggedVpc : FilterableResource :=
  filterable vpc "some-id" (Some {[ "foo" := "bar" ]}).
Definition bareSubnet : FilterableResource :=
  filterable "aws_subnet" "some-id" None.
Definition taggedSubnet : FilterableResource :=
  filterable "aws_subnet" "some-id" (Some {[ "any" := "tag" ]}).

(** A filter whose only id pattern, and one whose only tag pattern, is the
    malformed ["("]. *)
Definition malformedIds : Filter :=
  {| cfg := {[ iamRoleType :=
                 {| Ids := [Some "("]; Tags := ∅; created := noCreated |} ]} |}.
Definition malformedTags : Filter :=
  {| cfg := {[ instanceType :=
                 {| Ids := []; Tags := {[ "foo" := "(" ]};
                    created := noCreated |} ]} |}.

(** A filter whose only id entry is null (a nil pointer), and a role. *)
Definition nullEntry : configEntry :=
  {| Ids := [None]; Tags := ∅; created := noCreated |}.
Definition nullIds : Filter := {| cfg := {[ iamRoleType := nullEntry ]} |}.
Definition fooLala : FilterableResource := filterable iamRoleType "foo-lala" None.

(** A client whose STS connection answers with an account. *)
Definition mockAWSClient : AWSClient :=
  {| EC2conn := 1; ASconn := 2; ELBconn := 3; R53conn := 4; CFconn := 5;
     EFSconn := 6; IAMconn := 7; KMSconn := 8; S3conn := 9;
     GetCallerIdentity := ({| Account := Some "123456789012" |}, None) |}.

(** The config of [TestFilter_Validate_NotSupportedResourceTypeInConfig]. *)
Definition notSupported : Filter :=
  {| cfg := {[ securityGroupType := zeroEntry;
               "not_supported_type" := zeroEntry ]} |}.

(** The filter of the tests with a creation-time range in every entry. *)
Definition withCreated (c : Created) (e : configEntry) : configEntry :=
  {| Ids := Ids e; Tags := Tags e; created := c |}.
Definition fCreated : Filter :=
  {| cfg := withCreated {| Before := 1500000000%Z; After := 1400000000%Z |}
              <$> yml |}.

(** What an entry holds beside [Created]. *)
Definition criteria (e : configEntry)
  : list (option string) * gmap string string :=
  (Ids e, Tags e).

Definition onlyIds (type : string) (ids : list string) : Filter :=
  {| cfg := {[ type := {| Ids := Some <$> ids; Tags := ∅;
                          created := noCreated |} ]} |}.

(** The id ["bar-foo-baz"] under the single id pattern ["foo"]. *)
Definition fooFilter : Filter := onlyIds iamRoleType ["foo"].
Definition barFooBaz : FilterableResource :=
  filterable iamRoleType "bar-foo-baz" None.

(** ** Loading a filter *)

(** [afero.Fs], as far as [read] uses it: [afero.ReadFile(AppFs, filename)]
    returns the content of the file and an error. *)
Record Fs := { ReadFile : string → string * option error }.

Section loading.
(** The file system [AppFs] (a variable of the package, replaced in tests)
    and [yaml.Unmarshal] into a [Config]: the decoder returns the config it
    has filled and an error. *)
Variable AppFs : Fs.
Variable Unmarshal : string → Config * option error.

Definition read (filename : string) : result Config :=
  let '(data, err) := ReadFile AppFs filename in
  match err with
  | Some e => Fatal e
  | None =>
      let '(cfg, err) := Unmarshal data in
      match err with
      | Some e => Fatal e
      | None => Ret cfg
      end
  end.

Definition NewFilter (filename : string) (c : AWSClient) : result Filter :=
  config ← read filename;
  let filter := {| cfg := config |} in
  err ← Validate filter c;
  match err with
  | Some e => Fatal e
  | None => Ret filter
  end.
End loading.

(** ** Notions used in the further properties *)

(** A descriptor with everything the listing needs: the call, its input and
    the selection are set, the path into the output and the name of the id
    field are not empty. *)
Definition complete (a : APIDesc) : bool :=
  bool_decide (is_Some (Describe a)) && bool_decide (is_Some (DescribeInput a)) &&
  bool_decide (is_Some (Select a)) &&
  bool_decide (DescribeOutputName a ≠ []) && bool_decide (DeleteID a ≠ "").

(** A descriptor without the connection its call is bound to: of the call,
    the name of the method is kept. *)
Definition unbound (a : APIDesc)
  : string * list string * string * option string * option describeInput *
    option selectFn :=
  (TerraformType a, DescribeOutputName a, DeleteID a, method <$> Describe a,
   DescribeInput a, Select a).

(** The types whose descriptors are built with the account of the caller. *)
Definition ownedTypes : list string := ["aws_ebs_snapshot"; "aws_ami"].

(** The describe input that asks for what the account [owner] owns. *)
Definition ownedBy (type : string) (owner : option string) : describeInput :=
  Input type (inFilters [ {| Name := Some "owner-id"; Values := [owner] |} ]).

(** [tags'] has every tag of [tags]; a nil map has none. *)
Definition tagsIncluded (tags tags' : option (gmap string string)) : Prop :=
  match tags, tags' with
  | None, _ => True
  | Some m, Some m' => m ⊆ m'
  | Some _, None => False
  end.

(** A file system with the single file ["config.yml"], and a decoder that
    reads its content as the config of the tests. *)
Definition memFs : Fs :=
  {| ReadFile := λ filename,
       if decide (filename = "config.yml") then ("aws_iam_role: ...", None)
       else ("", Some "file does not exist") |}.
Definition memUnmarshal (data : string) : Config * option error :=
  if decide (data = "aws_iam_role: ...") then (yml, None)
  else (∅, Some "yaml: unmarshal errors").

(** A client whose STS connection fails. *)
Definition offlineClient : AWSClient :=
  {| EC2conn := 1; ASconn := 2; ELBconn := 3; R53conn := 4; CFconn := 5;
     EFSconn := 6; IAMconn := 7; KMSconn := 8; S3conn := 9;
     GetCallerIdentity := ({| Account := None |}, Some "RequestError") |}.

(** The tags [{"foo": "bar"}] in another order of visit, with one more tag. *)
Definition fooBar : gmap string string := {[ "foo" := "bar" ]}.
Definition fooBarEnv : gmap string string := {[ "foo" := "bar"; "env" := "dev" ]}.

(** * Properties *)

(** ** The matcher of the fragment finds exactly the matches *)
Module REFacts.
Import RE.

Lemma star_monotone step n : monotone step → monotone (star step n).
Proof.
  intros Hstep. induction n as [|n IH]; intros u s k1 k2 Hk; simpl;
    rewrite !orb_true_iff; intros [Hnow|Hlater]; auto.
  right. revert Hlater. apply Hstep. intros u' s'.
  rewrite !andb_true_iff. intros [Hlt Hrest]. split; [done|].
  revert Hrest. by apply IH.
Qed.

Lemma run_monotone re : monotone (run re).
Proof.
  induction re; intros u s k1 k2 Hk; simpl;
    repeat match goal with
           | |- context [match ?l with [] => _ | _ :: _ => _ end] => destruct l
           | |- context [decide ?P] => destruct (decide P)
           end; auto.
  - apply IHre1. intros u' s'. by apply IHre2.
  - rewrite !orb_true_iff. intros [?|?]; [left; eapply IHre1|right; eapply IHre2]; eauto.
  - by apply star_monotone.
  - apply IHre. intros u' s'. by apply star_monotone.
  - rewrite !orb_true_iff. intros [?|?]; [left; eapply IHre|right]; eauto.
  - by apply IHre.
Qed.

Lemma star_more_fuel step n m u s k :
  monotone step → n ≤ m → star step n u s k = true → star step m u s k = true.
Proof.
  intros Hstep. revert m u s. induction n as [|n IH]; intros m u s Hle; simpl.
  - rewrite orb_false_r. intros Hk. destruct m; simpl; by rewrite Hk.
  - destruct m as [|m]; [lia|]. simpl. rewrite !orb_true_iff.
    intros [?|Hlater]; [by left|right]. revert Hlater. apply Hstep.
    intros u' s'. rewrite !andb_true_iff. intros [? ?]. split; [done|].
    apply IH; [lia|done].
Qed.

(** Completeness: a match is found, whatever is to be done next. *)
Lemma run_complete re u w v :
  matches re u w v →
  ∀ k : cont, k (u ++ w) v = true → run re u (w ++ v) k = true.
Proof.
  induction 1; intros k Hk; simpl in *.
  - by rewrite app_nil_r in Hk.
  - by rewrite decide_True.
  - by rewrite decide_False.
  - done.
  - by rewrite app_nil_r in Hk.
  - rewrite <- (assoc_L (++)). apply IHmatches1. apply IHmatches2.
    by rewrite <- (assoc_L (++)).
  - by rewrite IHmatches.
  - rewrite (IHmatches k Hk). apply orb_true_r.
  - rewrite app_nil_r in Hk. destruct (length v); simpl; by rewrite Hk.
  - rewrite <- (assoc_L (++)).
    destruct w1 as [|a w1]; [done|].
    change (length ((a :: w1) ++ w2 ++ v)) with (S (length (w1 ++ w2 ++ v))).
    simpl star. apply orb_true_iff. right. apply (IHmatches1 _).
    apply andb_true_iff. split.
    + apply Nat.ltb_lt. simpl. rewrite !length_app. lia.
    + eapply star_more_fuel; [apply run_monotone| |apply IHmatches2].
      * rewrite !length_app. lia.
      * by rewrite <- (assoc_L (++)).
  - rewrite <- (assoc_L (++)). apply IHmatches1. apply IHmatches2.
    by rewrite <- (assoc_L (++)).
  - by rewrite IHmatches.
  - rewrite app_nil_r in Hk. rewrite Hk. apply orb_true_r.
  - by apply IHmatches.
Qed.

Local Ltac found w v :=
  exists w, v; rewrite <- ?(assoc_L (++)), ?app_nil_r in *;
  split_and!; first [done | by eauto using matches].

Lemma star_sound r n : sound (run r) r → sound (star (run r) n) (Star r).
Proof.
  intros Hr. induction n as [|n IH]; intros u s k; simpl;
    rewrite orb_true_iff; intros [Hk|Hlater]; try done; try (by found (@nil ascii) s).
  apply Hr in Hlater as (w1 & v1 & -> & Hm1 & Hk').
  apply andb_true_iff in Hk' as [Hlt Hrest].
  apply Nat.ltb_lt in Hlt. rewrite length_app in Hlt.
  apply IH in Hrest as (w2 & v & -> & Hm2 & Hk).
  assert (w1 ≠ []) by (intros ->; simpl in Hlt; lia).
  found (w1 ++ w2) v.
Qed.

Lemma run_sound re : sound (run re) re.
Proof.
  induction re; intros u s k; simpl.
  - intros Hk. found (@nil ascii) s.
  - destruct s as [|a s]; [done|]. case_decide; [subst|done].
    intros Hk. found [c] s.
  - destruct s as [|a s]; [done|]. case_decide; [done|].
    intros Hk. found [a] s.
  - destruct u; [|done]. intros Hk. found (@nil ascii) s.
  - destruct s; [|done]. intros Hk. found (@nil ascii) (@nil ascii).
  - intros Hrun. apply IHre1 in Hrun as (w1 & v1 & -> & Hm1 & Hrun).
    apply IHre2 in Hrun as (w2 & v & -> & Hm2 & Hk).
    found (w1 ++ w2) v.
  - rewrite orb_true_iff.
    intros [(w & v & -> & ? & ?)%IHre1|(w & v & -> & ? & ?)%IHre2];
      found w v.
  - by apply star_sound.
  - intros Hrun. apply IHre in Hrun as (w1 & v1 & -> & Hm1 & Hrun).
    apply star_sound in Hrun as (w2 & v & -> & Hm2 & Hk); [|done].
    found (w1 ++ w2) v.
  - rewrite orb_true_iff. intros [(w & v & -> & ? & ?)%IHre|Hk].
    + found w v.
    + found (@nil ascii) s.
  - intros (w & v & -> & ? & ?)%IHre. found w v.
Qed.

(** The search succeeds exactly when some piece of the text is a match. *)
Lemma search_spec re u s :
  search re u s = true ↔
  ∃ p w v, s = p ++ w ++ v ∧ matches re (u ++ p) w v.
Proof.
  revert u. induction s as [|a s IH]; intros u; simpl;
    rewrite orb_true_iff; split.
  - intros [(w & v & Hs & Hm & _)%run_sound|?]; [|done].
    exists [], w, v. by rewrite app_nil_r.
  - intros (p & w & v & Hs & Hm). left.
    symmetry in Hs. apply app_eq_nil in Hs as [-> Hs].
    rewrite app_nil_r in Hm. rewrite <- Hs.
    by apply run_complete.
  - intros [(w & v & Hs & Hm & _)%run_sound|(p & w & v & -> & Hm)%IH].
    + exists [], w, v. by rewrite app_nil_r.
    + exists (a :: p), w, v. by rewrite <- (assoc_L (++)) in Hm.
  - intros (p & w & v & Hs & Hm). destruct p as [|b p]; simpl in Hs.
    + left. rewrite app_nil_r in Hm. rewrite Hs. by apply run_complete.
    + right. injection Hs as <- ->. apply IH. exists p, w, v.
      by rewrite <- (assoc_L (++)).
Qed.

Lemma matches_anywhere re u w v :
  matches re u w v → anchorFree re = true → ∀ u' v', matches re u' w v'.
Proof.
  induction 1; simpl; rewrite ?andb_true_iff; intros Hfree u' v';
    try done; destruct_and?; eauto using matches.
Qed.

(** [MatchString] of the fragment, for a pattern that compiles and a text
    of ASCII characters. *)
Lemma goMatchString_spec pattern re s :
  Compile pattern = Parsed re →
  forallb isASCII (String.list_ascii_of_string s) = true →
  ∃ matched, goMatchString pattern s = Some (matched, None) ∧
    (matched = true ↔
     ∃ u w v, String.list_ascii_of_string s = u ++ w ++ v ∧ matches re u w v).
Proof.
  intros Hre Hs. unfold goMatchString. rewrite Hre, Hs.
  eexists. split; [done|]. by rewrite search_spec.
Qed.
End REFacts.

(** ** The loops of the filter *)
Section filter_facts.
Context `{Regexp}.

Lemma MatchString_true regex s err :
  MatchString regex s = (true, err) → err = None.
Proof.
  intros E. pose proof (MatchString_matched_nil regex s) as Hnil.
  rewrite E in Hnil. by apply Hnil.
Qed.

(** The loop of [matchID] panics when it reaches a null entry and returns
    the verdict otherwise. *)
Lemma matchID_range_verdict ids id :
  matchID_range ids id =
    if nullReached ids id then Panic else Ret (idVerdict ids id, None).
Proof.
  induction ids as [|[regex|] rest IH]; simpl; [done| |done].
  destruct (MatchString regex id) as [[] err] eqn:E; simpl; [|done].
  by rewrite (MatchString_true _ _ _ E).
Qed.

Lemma nullReached_spec ids id :
  nullReached ids id = true ↔ nullBeforeMatch ids id.
Proof.
  unfold nullBeforeMatch. induction ids as [|[regex|] rest IH]; simpl.
  - split; [done|]. intros (pre & tl & Heq & _). by destruct pre.
  - destruct (MatchString regex id).1 eqn:Hm.
    + split; [done|]. intros ([|entry pre] & tl & Heq & Hpre); [done|].
      injection Heq as <- _. rewrite Hpre in Hm; [done|left].
    + rewrite IH. split.
      * intros (pre & tl & -> & Hpre). exists (Some regex :: pre), tl.
        split; [done|]. intros r [[= <-]|Hin]%elem_of_cons; [done|by apply Hpre].
      * intros ([|entry pre] & tl & Heq & Hpre); [done|].
        injection Heq as <- ->. exists pre, tl. split; [done|].
        intros r Hin. apply Hpre. by right.
  - split; [|done]. intros _. exists [], rest. split; [done|].
    by intros r Hin%elem_of_nil.
Qed.

Lemma nullReached_no_null ids id :
  Forall is_Some ids → nullReached ids id = false.
Proof.
  induction 1 as [|[regex|] rest Hsome _ IH]; simpl; [done| |by destruct Hsome].
  by destruct (MatchString regex id).1.
Qed.

Lemma matchTags_range_verdict kvs resource :
  matchTags_range kvs resource = Ret (tagVerdict kvs resource, None).
Proof.
  induction kvs as [|[key regex] rest IH]; simpl; [done|].
  destruct (tagLookup resource key) as [tagVal|]; [|done].
  destruct (MatchString regex tagVal) as [[] err] eqn:E; simpl; [|done].
  by rewrite (MatchString_true _ _ _ E).
Qed.

(** The verdict of the tag loop does not depend on the order in which the
    range visits the map. *)
Lemma matchTags_range_Permutation kvs kvs' resource :
  kvs ≡ₚ kvs' → matchTags_range kvs resource = matchTags_range kvs' resource.
Proof.
  intros Hperm. rewrite !matchTags_range_verdict. do 2 f_equal.
  apply eq_true_iff_eq. unfold tagVerdict. rewrite !existsb_exists.
  by setoid_rewrite <- list_elem_of_In; setoid_rewrite Hperm.
Qed.

Lemma idVerdict_true e id :
  idVerdict (Ids e) id = true ↔ someIdMatches e id.
Proof.
  unfold idVerdict, someIdMatches. rewrite existsb_exists.
  setoid_rewrite <- list_elem_of_In. split.
  - intros ([regex|] & Hin & Hm); [|done]. by exists regex.
  - intros (regex & Hin & Hm). by exists (Some regex).
Qed.

Lemma tagVerdict_true e resource :
  tagVerdict (map_to_list (Tags e)) resource = true ↔
  ∃ tags, rTags resource = Some tags ∧ someTagMatches e tags.
Proof.
  unfold tagVerdict, someTagMatches, tagLookup. rewrite existsb_exists. split.
  - intros ([key regex] & Hin & Hm). simpl in Hm.
    apply list_elem_of_In, elem_of_map_to_list in Hin.
    destruct (rTags resource) as [tags|]; simpl in Hm; [|done].
    destruct (tags !! key) as [tagVal|] eqn:Hkey; [|done].
    exists tags. split; [done|]. by exists key, regex, tagVal.
  - intros (tags & -> & key & regex & tagVal & Hcfg & Hkey & Hm).
    exists (key, regex). split.
    + by apply list_elem_of_In, elem_of_map_to_list.
    + simpl. by rewrite Hkey.
Qed.

Lemma matchID_cases f resource :
  let e := cfgEntryOf f resource in
  matchID f resource =
    if decide (Ids e = []) then Ret (false, Some errNoIDs)
    else if nullReached (Ids e) (ID resource) then Panic
    else Ret (idVerdict (Ids e) (ID resource), None).
Proof.
  intros e. unfold matchID. fold e. rewrite matchID_range_verdict.
  destruct (Ids e); by repeat case_decide.
Qed.

Lemma matchTags_cases f resource :
  let e := cfgEntryOf f resource in
  matchTags f resource =
    if decide (Tags e = ∅) then Ret (false, Some errNoTags)
    else Ret (tagVerdict (map_to_list (Tags e)) resource, None).
Proof.
  intros e. unfold matchTags. fold e. rewrite matchTags_range_verdict.
  destruct (decide (size (Tags e) = 0)) as [Hsz|Hsz];
    destruct (decide (Tags e = ∅)) as [He|He]; try done.
  - by apply map_size_empty_iff in Hsz.
  - by rewrite He, map_size_empty in Hsz.
Qed.

(** [Matches] panics exactly when [matchID] does. *)
Lemma Matches_cases f resource :
  let e := cfgEntryOf f resource in
  Matches f resource =
    if nullReached (Ids e) (ID resource) then Panic
    else Ret (selects e resource).
Proof.
  intros e. unfold Matches, selects.
  rewrite matchID_cases, matchTags_cases. fold e.
  destruct (nullReached (Ids e) (ID resource)) eqn:Hnull;
    destruct (rTags resource); repeat case_decide; simpl;
    try done; try (by rewrite ?orb_false_r);
    match goal with Hnil : Ids e = [] |- _ => by rewrite Hnil in Hnull end.
Qed.
End filter_facts.

(** ** The registry and the validator *)

Lemma Supported_cases c :
  match Supported c with
  | Ret descs => (GetCallerIdentity c).2 = None
  | Fatal e => (GetCallerIdentity c).2 = Some e
  | Panic => False
  end.
Proof.
  unfold Supported, accountID.
  by destruct (GetCallerIdentity c) as [res [e|]].
Qed.

Lemma Supported_NoDup c descs :
  Supported c = Ret descs → NoDup (TerraformType <$> descs).
Proof.
  unfold Supported, accountID.
  destruct (GetCallerIdentity c) as [res [e|]]; [done|]. simpl.
  intros [= <-]. apply (bool_decide_unpack _). by vm_compute.
Qed.

Lemma getSupported_range_found descs a :
  NoDup (TerraformType <$> descs) → a ∈ descs →
  getSupported_range descs (TerraformType a) = (a, None).
Proof.
  induction descs as [|b rest IH]; simpl; [by intros _ ?%elem_of_nil|].
  rewrite NoDup_cons. intros [Hfresh Hrest] Hin. case_decide as Hb.
  - apply elem_of_cons in Hin as [->|Hin]; [done|].
    destruct Hfresh. rewrite Hb. by apply list_elem_of_fmap_2.
  - apply elem_of_cons in Hin as [->|Hin]; [done|]. by apply IH.
Qed.

Lemma getSupported_range_missing descs resType :
  ¬ supportedType descs resType →
  getSupported_range descs resType = (zeroAPIDesc, Some (errNoAPIDesc resType)).
Proof.
  unfold supportedType. induction descs as [|b rest IH]; simpl; [done|].
  intros Hno. case_decide.
  - destruct Hno. exists b. split; [left|done].
  - apply IH. intros (a & Hin & Ha). apply Hno. exists a. split; [by right|done].
Qed.

Lemma isTerraformType_range_flag descs resType flag :
  isTerraformType_range descs resType flag =
  flag || existsb (λ a, bool_decide (resType = TerraformType a)) descs.
Proof.
  revert flag. induction descs as [|a rest IH]; intros flag; simpl.
  - by rewrite orb_false_r.
  - rewrite IH. case_decide; [rewrite bool_decide_true by done|
                              rewrite bool_decide_false by done]; simpl;
      by rewrite ?orb_true_r.
Qed.

Lemma isTerraformType_range_true descs resType :
  isTerraformType_range descs resType false = true ↔ supportedType descs resType.
Proof.
  rewrite isTerraformType_range_flag. simpl. rewrite existsb_exists.
  unfold supportedType. setoid_rewrite <- list_elem_of_In.
  setoid_rewrite bool_decide_eq_true.
  split; intros (a & ? & ?); by exists a.
Qed.

Lemma Validate_range_None descs resTypes :
  Validate_range descs resTypes = None ↔ Forall (supportedType descs) resTypes.
Proof.
  induction resTypes as [|t rest IH]; simpl; [done|].
  rewrite Forall_cons, <- IH, <- isTerraformType_range_true.
  destruct (isTerraformType_range descs t false); simpl; split; try done.
  - by intros [_ ?].
  - by intros [? _].
Qed.

Lemma Validate_range_Some descs resTypes e :
  Validate_range descs resTypes = Some e →
  ∃ t, t ∈ resTypes ∧ ¬ supportedType descs t ∧ e = errUnsupported t.
Proof.
  induction resTypes as [|t rest IH]; simpl; [done|].
  destruct (isTerraformType_range descs t false) eqn:Ht; simpl.
  - intros (t' & ? & ? & ?)%IH. exists t'. split; [by right|done].
  - intros [= <-]. exists t. split; [left|]. split; [|done].
    rewrite <- isTerraformType_range_true. by rewrite Ht.
Qed.

(** Whether [Validate] passes does not depend on the order in which the
    range visits the config. *)
Lemma Validate_range_Permutation descs resTypes resTypes' :
  resTypes ≡ₚ resTypes' →
  Validate_range descs resTypes = None ↔ Validate_range descs resTypes' = None.
Proof. intros Hperm. by rewrite !Validate_range_None, Hperm. Qed.

Lemma elem_of_ResourceTypes f resType :
  resType ∈ ResourceTypes f ↔ is_Some (cfg f !! resType).
Proof.
  unfold ResourceTypes. rewrite list_elem_of_fmap. split.
  - intros ([k e] & -> & Hin%elem_of_map_to_list). by exists e.
  - intros [e He]. exists (resType, e). by rewrite elem_of_map_to_list.
Qed.

(** ** The combine policy *)

Lemma tags_present_iff `{Regexp} e res :
  (∃ tags, rTags res = Some tags ∧ someTagMatches e tags) ↔
  match rTags res with Some tags => someTagMatches e tags | None => False end.
Proof.
  destruct (rTags res) as [tags|]; split; try done.
  - by intros (? & [= <-] & ?).
  - intros ?. by exists tags.
  - by intros (? & ? & _).
Qed.

(** C1, as amended: for a resource whose kind has a config entry with id
    patterns or tag patterns, in which no null id entry comes before every
    pattern that matches the id (so, when no id entry is null), [Matches]
    returns, and it returns true exactly when the id patterns are not empty
    and one of them matches the id, or the tag patterns are not empty, the
    resource has a tag map and some configured key is a tag of the resource
    whose value matches the key's pattern.  With only tag patterns
    configured a resource without a tag map is not selected. *)
Theorem Matches_or_of_criteria `{Regexp} fl res e :
  cfg fl !! Type_ res = Some e →
  Ids e ≠ [] ∨ Tags e ≠ ∅ →
  ¬ nullBeforeMatch (Ids e) (ID res) →
  ∃ selected, Matches fl res = Ret selected ∧
    (selected = true ↔
       (Ids e ≠ [] ∧ someIdMatches e (ID res)) ∨
       (Tags e ≠ ∅ ∧ ∃ tags, rTags res = Some tags ∧ someTagMatches e tags)) ∧
    (Ids e = [] → rTags res = None → selected = false).
Proof.
  intros He Hcrit Hnull. rewrite Matches_cases. unfold cfgEntryOf. rewrite He.
  simpl. rewrite <- nullReached_spec in Hnull.
  apply not_true_is_false in Hnull. rewrite Hnull.
  eexists. split; [done|]. unfold selects.
  pose proof (idVerdict_true e (ID res)) as Hid.
  pose proof (tagVerdict_true e res) as Htag.
  split.
  - rewrite tags_present_iff in Htag |- *.
    destruct (rTags res) as [tags|]; repeat case_decide; simpl;
      rewrite ?orb_true_iff, ?orb_false_r, ?Hid, ?Htag; try tauto;
      split; intros Hx; try discriminate; intuition discriminate.
  - intros HnoIds ->. by rewrite decide_True.
Qed.

Lemma Matches_or_of_criteria_witness :
  cfg f !! Type_ taggedVpc = Some vpcEntry ∧
  (Ids vpcEntry ≠ [] ∨ Tags vpcEntry ≠ ∅) ∧
  ¬ @nullBeforeMatch goFragment (Ids vpcEntry) (ID taggedVpc) ∧
  ∃ selected, @Matches goFragment f taggedVpc = Ret selected ∧
    (selected = true ↔
       (Ids vpcEntry ≠ [] ∧ @someIdMatches goFragment vpcEntry (ID taggedVpc)) ∨
       (Tags vpcEntry ≠ ∅ ∧
        ∃ tags, rTags taggedVpc = Some tags ∧
                @someTagMatches goFragment vpcEntry tags)) ∧
    (Ids vpcEntry = [] → rTags taggedVpc = None → selected = false).
Proof.
  assert (Hentry : cfg f !! Type_ taggedVpc = Some vpcEntry)
    by (vm_compute; reflexivity).
  assert (Hcrit : Ids vpcEntry ≠ [] ∨ Tags vpcEntry ≠ ∅) by (left; discriminate).
  assert (Hnull : ¬ @nullBeforeMatch goFragment (Ids vpcEntry) (ID taggedVpc)).
  { intros (pre & rest & Heq & _). destruct pre as [|? [|? ?]]; discriminate Heq. }
  split; [exact Hentry|]. split; [exact Hcrit|]. split; [exact Hnull|].
  exact (@Matches_or_of_criteria goFragment f taggedVpc vpcEntry
           Hentry Hcrit Hnull).
Defined.

(** C1 fails as stated: the entry of the role has an id entry, a null one,
    and [Matches] does not return for a role: it panics. *)
Lemma Matches_null_id_panics :
  cfg nullIds !! Type_ fooLala = Some nullEntry ∧
  (Ids nullEntry ≠ [] ∨ Tags nullEntry ≠ ∅) ∧
  @Matches goFragment nullIds fooLala = Panic.
Proof. split_and!; [by vm_compute|by left|by vm_compute]. Qed.

(** C2 (what the code does at the failing input): with an entry that has
    neither id patterns nor tag patterns, a resource of that kind is selected
    when it has a tag map and is not selected when its tag map is nil,
    whatever its id; [Matches] returns false for the security group without
    tags under the filter of the tests, and true once it carries a tag. *)
Theorem Matches_empty_entry_nil_tags :
  (∀ (R : Regexp) fl res e,
     cfg fl !! Type_ res = Some e → Ids e = [] → Tags e = ∅ →
     Matches fl res = Ret (bool_decide (is_Some (rTags res)))) ∧
  cfg f !! securityGroupType = Some zeroEntry ∧
  @Matches goFragment f (filterable securityGroupType "any-id" None) = Ret false ∧
  @Matches goFragment f
     (filterable securityGroupType "any-id" (Some {[ "any" := "tag" ]})) = Ret true.
Proof.
  split; [|by vm_compute].
  intros R fl res e He Hids Htags. rewrite Matches_cases. unfold cfgEntryOf.
  rewrite He. simpl. unfold selects. rewrite Hids. simpl.
  rewrite !decide_True by done. by destruct (rTags res).
Qed.

(** C3, as amended: for a resource whose kind is not a key of the config the
    lookup gives the zero entry, and [Matches] returns false when the tag map
    of the resource is nil and true when it is present. *)
Theorem Matches_absent_kind `{Regexp} fl res :
  cfg fl !! Type_ res = None →
  Matches fl res = Ret (bool_decide (is_Some (rTags res))).
Proof.
  intros Hkind. rewrite Matches_cases. unfold cfgEntryOf. rewrite Hkind. simpl.
  unfold selects. by destruct (rTags res).
Qed.

Lemma Matches_absent_kind_witness :
  cfg f !! Type_ bareSubnet = None ∧
  @Matches goFragment f bareSubnet =
    Ret (bool_decide (is_Some (rTags bareSubnet))).
Proof.
  assert (Hkind : cfg f !! Type_ bareSubnet = None) by (vm_compute; reflexivity).
  split; [exact Hkind|].
  exact (@Matches_absent_kind goFragment f bareSubnet Hkind).
Defined.

(** C3 fails as stated: the kind ["aws_subnet"] is not a key of the filter
    of the tests, and a subnet that carries a tag is selected. *)
Lemma absent_kind_with_tags_selected :
  cfg f !! Type_ taggedSubnet = None ∧
  @Matches goFragment f taggedSubnet = Ret true.
Proof. by vm_compute. Qed.

(** ** The two predicates *)

(** C4, as amended: when no null id entry comes before every pattern that
    matches the id (so, when no id entry is null), [matchID] returns; its
    error is set exactly when the entry of the kind of the resource has no id
    patterns, and then the verdict is false; otherwise the verdict is true
    exactly when some configured id pattern matches the id.  With the id
    patterns ["^foo.*"], the id ["foo-lala"] matches and the id ["lala-foo"]
    does not. *)
Theorem matchID_spec :
  (∀ (R : Regexp) fl res,
     ¬ nullBeforeMatch (Ids (cfgEntryOf fl res)) (ID res) →
     ∃ matched err, matchID fl res = Ret (matched, err) ∧
       (is_Some err ↔ Ids (cfgEntryOf fl res) = []) ∧
       (Ids (cfgEntryOf fl res) = [] → matched = false) ∧
       (Ids (cfgEntryOf fl res) ≠ [] →
        (matched = true ↔ someIdMatches (cfgEntryOf fl res) (ID res)))) ∧
  Ids (cfgEntryOf f (filterable iamRoleType "foo-lala" None)) = [Some "^foo.*"] ∧
  @matchID goFragment f (filterable iamRoleType "foo-lala" None) = Ret (true, None) ∧
  @matchID goFragment f (filterable iamRoleType "lala-foo" None) = Ret (false, None) ∧
  @matchID goFragment f (filterable securityGroupType "matches-any-id" None) =
    Ret (false, Some errNoIDs).
Proof.
  split; [|by vm_compute].
  intros R fl res Hnull. rewrite matchID_cases. simpl.
  rewrite <- nullReached_spec in Hnull. apply not_true_is_false in Hnull.
  rewrite Hnull. case_decide as Hids.
  - exists false, (Some errNoIDs). by split_and!.
  - eexists _, None. split_and!; try done.
    intros _. apply idVerdict_true.
Qed.

Lemma matchID_spec_witness :
  ¬ @nullBeforeMatch goFragment (Ids (cfgEntryOf f fooLala)) (ID fooLala) ∧
  ∃ matched err, @matchID goFragment f fooLala = Ret (matched, err) ∧
    (is_Some err ↔ Ids (cfgEntryOf f fooLala) = []) ∧
    (Ids (cfgEntryOf f fooLala) = [] → matched = false) ∧
    (Ids (cfgEntryOf f fooLala) ≠ [] →
     (matched = true ↔
      @someIdMatches goFragment (cfgEntryOf f fooLala) (ID fooLala))).
Proof.
  assert (Hnull :
    ¬ @nullBeforeMatch goFragment (Ids (cfgEntryOf f fooLala)) (ID fooLala)).
  { intros (pre & rest & Heq & _).
    change (Ids (cfgEntryOf f fooLala)) with [Some "^foo.*"] in Heq.
    destruct pre as [|? [|? ?]]; discriminate Heq. }
  split; [exact Hnull|].
  exact (proj1 matchID_spec goFragment f fooLala Hnull).
Defined.

(** C4 fails as stated: the entry of the role has an id entry, a null one,
    and [matchID] returns neither an error nor a verdict: it panics. *)
Lemma matchID_null_id_panics :
  Ids (cfgEntryOf nullIds fooLala) ≠ [] ∧
  @matchID goFragment nullIds fooLala = Panic.
Proof. split; by vm_compute. Qed.


(** C6 (what the code does with a malformed pattern): [matchID] and
    [matchTags] never reach [log.Fatal]; a pattern that does not compile is
    passed over like one that does not match.  The pattern ["("] does not
    compile, and with it as the only id pattern, or the only tag pattern,
    both functions return the verdict false with a nil error. *)
Theorem malformed_pattern_not_fatal :
  (∀ (R : Regexp) fl res e,
     matchID fl res ≠ Fatal e ∧ matchTags fl res ≠ Fatal e) ∧
  RE.goMatchString "(" "foo-lala" = Some (false, Some RE.ErrMissingParen) ∧
  @matchID goFragment malformedIds (filterable iamRoleType "foo-lala" None) =
    Ret (false, None) ∧
  @matchTags goFragment malformedTags
     (filterable instanceType "i-1" (Some {[ "foo" := "bar" ]})) =
    Ret (false, None).
Proof.
  split; [|by vm_compute].
  intros R fl res e. rewrite matchID_cases, matchTags_cases. simpl.
  split; [|by case_decide].
  case_decide; [done|]. by destruct (nullReached _ _).
Qed.

(** ** The validator and the registry *)

(** C7: when the registry can be built, [Validate] returns, and it returns
    no error exactly when every key of the config is the [TerraformType] of
    some descriptor of [Supported]; an error it returns names a key of the
    config that no descriptor has.  (When the registry cannot be built the
    process ends; building it does not panic.)  The filter of the tests, with an entry without criteria,
    passes, and so does the empty config; the config that names
    ["not_supported_type"] beside a supported type fails. *)
Theorem Validate_spec :
  (∀ fl c,
     match Supported c with
     | Ret descs =>
         ∃ err, Validate fl c = Ret err ∧
           (err = None ↔
            ∀ resType, is_Some (cfg fl !! resType) → supportedType descs resType) ∧
           (∀ e, err = Some e →
              ∃ resType, is_Some (cfg fl !! resType) ∧
                ¬ supportedType descs resType ∧ e = errUnsupported resType)
     | Fatal e => Validate fl c = Fatal e
     | Panic => False
     end) ∧
  Validate f mockAWSClient = Ret None ∧
  Validate {| cfg := ∅ |} mockAWSClient = Ret None ∧
  Validate notSupported mockAWSClient =
    Ret (Some (errUnsupported "not_supported_type")).
Proof.
  split; [|by vm_compute].
  intros fl c. unfold Validate. pose proof (Supported_cases c) as Hc.
  destruct (Supported c) as [descs|e|]; [|done..].
  simpl. eexists. split; [done|]. split.
  - rewrite Validate_range_None, Forall_forall.
    by setoid_rewrite elem_of_ResourceTypes.
  - intros e (t & Hin%elem_of_ResourceTypes & Hno & ->)%Validate_range_Some.
    by exists t.
Qed.

(** C8: the types of the descriptors [Supported] returns are pairwise
    different; [getSupported] on the type of a descriptor of the list returns
    that descriptor, and on a type that no descriptor has it returns an
    error beside the zero descriptor.  (When the registry cannot be built
    the process ends; building it does not panic.)  For a client whose STS connection answers, the
    registry is built and has 29 descriptors. *)
Theorem Supported_getSupported :
  (∀ c,
     match Supported c with
     | Ret descs =>
         NoDup (TerraformType <$> descs) ∧
         (∀ a, a ∈ descs → getSupported (TerraformType a) c = Ret (a, None)) ∧
         (∀ resType, ¬ supportedType descs resType →
            getSupported resType c =
              Ret (zeroAPIDesc, Some (errNoAPIDesc resType)))
     | Fatal e => ∀ resType, getSupported resType c = Fatal e
     | Panic => False
     end) ∧
  ∃ descs, Supported mockAWSClient = Ret descs ∧ length descs = 29.
Proof.
  split; [|by eexists].
  intros c. unfold getSupported.
  pose proof (Supported_cases c) as Hcases.
  destruct (Supported c) as [descs|e|] eqn:Hc; [|done..].
  pose proof (Supported_NoDup _ _ Hc) as Hnodup. split_and!; [done|..].
  - intros a Hin. simpl. by rewrite getSupported_range_found.
  - intros resType Hno. simpl. by rewrite getSupported_range_missing.
Qed.

(** ** The creation time *)

Lemma cfgEntryOf_criteria f1 f2 res :
  criteria <$> cfg f1 = criteria <$> cfg f2 →
  criteria (cfgEntryOf f1 res) = criteria (cfgEntryOf f2 res).
Proof.
  intros Hsame. unfold cfgEntryOf.
  pose proof (lookup_fmap criteria (cfg f1) (Type_ res)) as H1.
  pose proof (lookup_fmap criteria (cfg f2) (Type_ res)) as H2.
  rewrite Hsame, H2 in H1.
  destruct (cfg f1 !! Type_ res), (cfg f2 !! Type_ res); simpl in *; congruence.
Qed.

(** C9: [Matches] does not read [Created]: on two configs that are the same
    but for the [Created] fields of their entries it returns the same
    result, for every resource. *)
Theorem Matches_ignores_Created `{Regexp} f1 f2 res :
  criteria <$> cfg f1 = criteria <$> cfg f2 →
  Matches f1 res = Matches f2 res.
Proof.
  intros Hsame. apply (cfgEntryOf_criteria _ _ res) in Hsame.
  unfold criteria in Hsame. injection Hsame as Hids Htags.
  rewrite !Matches_cases. simpl. unfold selects. by rewrite Hids, Htags.
Qed.

Lemma Matches_ignores_Created_witness :
  criteria <$> cfg f = criteria <$> cfg fCreated ∧
  @Matches goFragment f taggedVpc = @Matches goFragment fCreated taggedVpc.
Proof.
  assert (Hsame : criteria <$> cfg f = criteria <$> cfg fCreated)
    by (vm_compute; reflexivity).
  split; [exact Hsame|].
  exact (@Matches_ignores_Created goFragment f fCreated taggedVpc Hsame).
Defined.

(** * Further properties *)

(** ** The resource types of a config *)

(** X1: [ResourceTypes] lists every key of the config once: the list has no
    repetition, as many elements as the config has entries, and a type is in
    it exactly when the config has an entry for it. *)
Theorem ResourceTypes_keys fl :
  NoDup (ResourceTypes fl) ∧
  length (ResourceTypes fl) = size (cfg fl) ∧
  ∀ resType, resType ∈ ResourceTypes fl ↔ is_Some (cfg fl !! resType).
Proof.
  split_and!.
  - apply NoDup_fst_map_to_list.
  - unfold ResourceTypes. by rewrite length_fmap, length_map_to_list.
  - apply elem_of_ResourceTypes.
Qed.

(** ** The validator, whatever the order of the range *)

(** X2: the range over the config visits its keys in no fixed order.  In
    whatever order [Validate] meets them, it passes or fails alike, and an
    error it returns names a key of the config that no descriptor has. *)
Theorem Validate_any_order descs fl resTypes :
  resTypes ≡ₚ ResourceTypes fl →
  (Validate_range descs resTypes = None ↔
   Validate_range descs (ResourceTypes fl) = None) ∧
  ∀ e, Validate_range descs resTypes = Some e →
    ∃ resType, is_Some (cfg fl !! resType) ∧
      ¬ supportedType descs resType ∧ e = errUnsupported resType.
Proof.
  intros Hperm. split.
  - by rewrite !Validate_range_None, Hperm.
  - intros e (t & Hin & Hno & ->)%Validate_range_Some. exists t.
    rewrite Hperm in Hin. by apply elem_of_ResourceTypes in Hin.
Qed.

Lemma Validate_any_order_witness :
  reverse (ResourceTypes notSupported) ≡ₚ ResourceTypes notSupported ∧
  (Validate_range [] (reverse (ResourceTypes notSupported)) = None ↔
   Validate_range [] (ResourceTypes notSupported) = None) ∧
  ∀ e, Validate_range [] (reverse (ResourceTypes notSupported)) = Some e →
    ∃ resType, is_Some (cfg notSupported !! resType) ∧
      ¬ supportedType [] resType ∧ e = errUnsupported resType.
Proof.
  assert (Hperm : reverse (ResourceTypes notSupported) ≡ₚ ResourceTypes notSupported)
    by apply reverse_Permutation.
  split; [exact Hperm|].
  exact (Validate_any_order [] notSupported _ Hperm).
Defined.

Lemma Validate_None fl c :
  Validate fl c = Ret None ↔
  ∃ descs, Supported c = Ret descs ∧
    ∀ resType, is_Some (cfg fl !! resType) → supportedType descs resType.
Proof.
  unfold Validate. destruct (Supported c) as [descs|e|]; simpl.
  - split.
    + intros [= Hnone]. exists descs. split; [done|].
      apply Validate_range_None in Hnone. rewrite Forall_forall in Hnone.
      intros t Ht. by apply Hnone, elem_of_ResourceTypes.
    + intros (? & [= <-] & Hall). f_equal. apply Validate_range_None.
      apply Forall_forall. intros t Ht. by apply Hall, elem_of_ResourceTypes.
  - split; [done|]. by intros (? & ? & _).
  - split; [done|]. by intros (? & ? & _).
Qed.

(** X3: a config with fewer keys passes when the larger one does: if every
    key of [f1] is a key of [f2] and [Validate] returns no error for [f2],
    it returns no error for [f1]; what the entries hold plays no part. *)
Theorem Validate_subconfig f1 f2 c :
  (∀ resType, is_Some (cfg f1 !! resType) → is_Some (cfg f2 !! resType)) →
  Validate f2 c = Ret None → Validate f1 c = Ret None.
Proof.
  intros Hsub (descs & Hc & Hall)%Validate_None. apply Validate_None.
  exists descs. split; [done|]. intros t Ht. by apply Hall, Hsub.
Qed.

Lemma Validate_subconfig_witness :
  (∀ resType, is_Some (cfg fooFilter !! resType) → is_Some (cfg f !! resType)) ∧
  Validate f mockAWSClient = Ret None ∧
  Validate fooFilter mockAWSClient = Ret None.
Proof.
  assert (Hsub : ∀ resType,
            is_Some (cfg fooFilter !! resType) → is_Some (cfg f !! resType)).
  { intros t. unfold fooFilter, onlyIds. simpl.
    destruct (decide (t = iamRoleType)) as [->|Hne].
    - intros _. vm_compute. eexists. reflexivity.
    - rewrite lookup_singleton_ne by done. intros [? [=]]. }
  assert (Hf : Validate f mockAWSClient = Ret None) by (vm_compute; reflexivity).
  split; [exact Hsub|]. split; [exact Hf|].
  exact (Validate_subconfig fooFilter f mockAWSClient Hsub Hf).
Defined.

(** ** The registry *)

Lemma getSupported_range_cases descs resType :
  (∃ a, getSupported_range descs resType = (a, None) ∧
        a ∈ descs ∧ TerraformType a = resType) ∨
  (getSupported_range descs resType = (zeroAPIDesc, Some (errNoAPIDesc resType)) ∧
   ¬ supportedType descs resType).
Proof.
  induction descs as [|b rest IH]; simpl.
  - right. split; [done|]. by intros (a & ?%elem_of_nil & _).
  - case_decide as Hb.
    + left. exists b. split_and!; [done|left|done].
    + destruct IH as [(a & -> & Hin & Ha)|[-> Hno]].
      * left. exists a. split_and!; [done|by right|done].
      * right. split; [done|]. intros (a & [->|Hin]%elem_of_cons & Ha); [done|].
        apply Hno. by exists a.
Qed.

(** X4: what [getSupported] returns.  Without an error, the descriptor is
    one of the list of [Supported] and has the type that was asked for; with
    an error, the descriptor is the zero value, the error names the type,
    and no descriptor of the list has that type.  The process ends only
    when the registry cannot be built, and there is no panic. *)
Theorem getSupported_outcome resType c :
  match getSupported resType c with
  | Ret (a, None) =>
      TerraformType a = resType ∧ ∃ descs, Supported c = Ret descs ∧ a ∈ descs
  | Ret (a, Some e) =>
      a = zeroAPIDesc ∧ e = errNoAPIDesc resType ∧
      ∃ descs, Supported c = Ret descs ∧ ¬ supportedType descs resType
  | Fatal e => Supported c = Fatal e
  | Panic => False
  end.
Proof.
  unfold getSupported. pose proof (Supported_cases c) as Hc.
  destruct (Supported c) as [descs|e|]; simpl; [|done..].
  destruct (getSupported_range_cases descs resType)
    as [(a & -> & Hin & Ha)|[-> Hno]]; eauto.
Qed.

(** X5: the validator and the lookup agree: [Validate] returns no error
    exactly when the registry can be built and [getSupported] finds a
    descriptor for every key of the config. *)
Theorem Validate_iff_getSupported fl c :
  Validate fl c = Ret None ↔
  (∃ descs, Supported c = Ret descs) ∧
  ∀ resType, is_Some (cfg fl !! resType) →
    ∃ a, getSupported resType c = Ret (a, None).
Proof.
  rewrite Validate_None. unfold getSupported. split.
  - intros (descs & Hc & Hall). split; [by exists descs|].
    intros t Ht. rewrite Hc. simpl.
    destruct (getSupported_range_cases descs t) as [(a & -> & _)|[_ Hno]].
    + by exists a.
    + destruct Hno. by apply Hall.
  - intros [[descs Hc] Hall]. exists descs. split; [done|].
    intros t Ht. destruct (Hall t Ht) as [a Ha]. rewrite Hc in Ha. simpl in Ha.
    destruct (getSupported_range_cases descs t) as [(b & _ & Hin & Hb)|[Hz _]].
    + by exists b.
    + rewrite Hz in Ha. by injection Ha.
Qed.

(** X6: every descriptor of the registry can be used to list resources: its
    call, its input and its selection are set, its path into the output of
    the call is not empty and the field of the id has a name. *)
Theorem Supported_complete c descs :
  Supported c = Ret descs → Forall (λ a, complete a = true) descs.
Proof.
  unfold Supported, accountID.
  destruct (GetCallerIdentity c) as [res [e|]]; [done|]. simpl.
  intros [= <-]. apply Forall_forall. intros a Hin.
  repeat (apply elem_of_cons in Hin as [->|Hin]; [by vm_compute|]).
  by apply elem_of_nil in Hin.
Qed.

Lemma Supported_complete_witness :
  (∃ descs, Supported mockAWSClient = Ret descs ∧
            Forall (λ a, complete a = true) descs).
Proof.
  eexists. split; [reflexivity|].
  exact (Supported_complete mockAWSClient _ eq_refl).
Defined.

(** X7: the account of the caller enters the registry in two places only.
    The snapshots and the images are listed with the filter [owner-id] set
    to the account that [GetCallerIdentity] returns, so that only what the
    caller owns is listed; all other descriptors are, but for the connection
    their call is bound to, the same for every client. *)
Theorem Supported_owner_filters c descs :
  Supported c = Ret descs →
  (∃ snapshots, getSupported "aws_ebs_snapshot" c = Ret (snapshots, None) ∧
     DescribeInput snapshots =
       Some (ownedBy "ec2.DescribeSnapshotsInput" (Account (GetCallerIdentity c).1))) ∧
  (∃ images, getSupported "aws_ami" c = Ret (images, None) ∧
     DescribeInput images =
       Some (ownedBy "ec2.DescribeImagesInput" (Account (GetCallerIdentity c).1))) ∧
  ∀ c' descs', Supported c' = Ret descs' →
    unbound <$> filter (λ a, TerraformType a ∉ ownedTypes) descs =
    unbound <$> filter (λ a, TerraformType a ∉ ownedTypes) descs'.
Proof.
  unfold getSupported, Supported, accountID.
  destruct (GetCallerIdentity c) as [res [e|]]; [done|]. simpl.
  intros [= <-]. split_and!.
  - eexists. split; [by vm_compute|done].
  - eexists. split; [by vm_compute|done].
  - intros c' descs'. destruct (GetCallerIdentity c') as [res' [e'|]]; [done|].
    simpl. intros [= <-]. by vm_compute.
Qed.

Lemma Supported_owner_filters_witness :
  ∃ descs, Supported mockAWSClient = Ret descs ∧
  (∃ snapshots,
     getSupported "aws_ebs_snapshot" mockAWSClient = Ret (snapshots, None) ∧
     DescribeInput snapshots =
       Some (ownedBy "ec2.DescribeSnapshotsInput"
               (Account (GetCallerIdentity mockAWSClient).1))) ∧
  (∃ images, getSupported "aws_ami" mockAWSClient = Ret (images, None) ∧
     DescribeInput images =
       Some (ownedBy "ec2.DescribeImagesInput"
               (Account (GetCallerIdentity mockAWSClient).1))) ∧
  ∀ c' descs', Supported c' = Ret descs' →
    unbound <$> filter (λ a, TerraformType a ∉ ownedTypes) descs =
    unbound <$> filter (λ a, TerraformType a ∉ ownedTypes) descs'.
Proof.
  eexists. split; [reflexivity|].
  exact (Supported_owner_filters mockAWSClient _ eq_refl).
Defined.

(** ** When the account cannot be found *)

(** X8: a failure of [GetCallerIdentity] ends the process wherever the
    registry is built: [accountID], [Supported], [getSupported] for every
    type and [Validate] for every filter, also the empty one, end with the
    error of the call, and so does [NewFilter] once the config is read. *)
Theorem STS_failure_is_fatal c e :
  (GetCallerIdentity c).2 = Some e →
  accountID c = Fatal e ∧
  Supported c = Fatal e ∧
  (∀ resType, getSupported resType c = Fatal e) ∧
  (∀ fl, Validate fl c = Fatal e) ∧
  (∀ fs unmarshal filename config,
     read fs unmarshal filename = Ret config →
     NewFilter fs unmarshal filename c = Fatal e).
Proof.
  intros Herr.
  assert (Hacc : accountID c = Fatal e).
  { unfold accountID. destruct (GetCallerIdentity c) as [res err].
    simpl in Herr. by rewrite Herr. }
  assert (Hsup : Supported c = Fatal e) by (unfold Supported; by rewrite Hacc).
  split_and!; try done.
  - intros t. unfold getSupported. by rewrite Hsup.
  - intros fl. unfold Validate. by rewrite Hsup.
  - intros fs um fn config Hread. unfold NewFilter, Validate.
    by rewrite Hread, Hsup.
Qed.

Lemma STS_failure_is_fatal_witness :
  (GetCallerIdentity offlineClient).2 = Some "RequestError" ∧
  accountID offlineClient = Fatal "RequestError" ∧
  Supported offlineClient = Fatal "RequestError" ∧
  (∀ resType, getSupported resType offlineClient = Fatal "RequestError") ∧
  (∀ fl, Validate fl offlineClient = Fatal "RequestError") ∧
  (∀ fs unmarshal filename config,
     read fs unmarshal filename = Ret config →
     NewFilter fs unmarshal filename offlineClient = Fatal "RequestError").
Proof.
  assert (Herr : (GetCallerIdentity offlineClient).2 = Some "RequestError")
    by reflexivity.
  split; [exact Herr|].
  exact (STS_failure_is_fatal offlineClient "RequestError" Herr).
Defined.

(** ** Loading a filter *)

(** X9: what [NewFilter] does, case by case.  It ends the process with the
    error of the file system when the file cannot be read, with the error of
    the decoder when the content cannot be decoded, and with the error of
    [GetCallerIdentity] when the registry cannot be built.  Otherwise it
    returns the decoded config as it is when every key of it is a supported
    type, and it ends the process with an error that names a key without
    descriptor when there is one.  Building the registry does not panic. *)
Theorem NewFilter_outcome fs unmarshal filename c :
  match ReadFile fs filename with
  | (_, Some e) => NewFilter fs unmarshal filename c = Fatal e
  | (data, None) =>
      match unmarshal data with
      | (_, Some e) => NewFilter fs unmarshal filename c = Fatal e
      | (config, None) =>
          match Supported c with
          | Fatal e => NewFilter fs unmarshal filename c = Fatal e
          | Panic => False
          | Ret descs =>
              ((∀ resType, is_Some (config !! resType) →
                           supportedType descs resType) ∧
               NewFilter fs unmarshal filename c = Ret {| cfg := config |}) ∨
              (∃ resType, is_Some (config !! resType) ∧
                 ¬ supportedType descs resType ∧
                 NewFilter fs unmarshal filename c =
                   Fatal (errUnsupported resType))
          end
      end
  end.
Proof.
  unfold NewFilter, read, Validate.
  destruct (ReadFile fs filename) as [data [e|]]; [done|].
  destruct (unmarshal data) as [config [e|]]; [done|]. simpl.
  pose proof (Supported_cases c) as Hc.
  destruct (Supported c) as [descs|e|]; [|done..]. simpl.
  destruct (Validate_range descs (ResourceTypes {| cfg := config |}))
    as [e|] eqn:Hval.
  - right. apply Validate_range_Some in Hval as (t & Hin & Hno & ->).
    exists t. by apply elem_of_ResourceTypes in Hin.
  - left. split; [|done]. apply Validate_range_None in Hval.
    rewrite Forall_forall in Hval. intros t Ht.
    by apply Hval, elem_of_ResourceTypes.
Qed.

(** X10: a filter that [NewFilter] returns has been checked: every resource
    type it lists has a descriptor that [getSupported] finds, of that very
    type, and [Validate] accepts the filter again. *)
Theorem NewFilter_types_supported fs unmarshal filename c fl :
  NewFilter fs unmarshal filename c = Ret fl →
  Validate fl c = Ret None ∧
  ∀ resType, resType ∈ ResourceTypes fl →
    ∃ a, getSupported resType c = Ret (a, None) ∧ TerraformType a = resType.
Proof.
  intros Hnew.
  assert (Hval : Validate fl c = Ret None).
  { unfold NewFilter in Hnew.
    destruct (read fs unmarshal filename) as [config|e|]; [|done..].
    simpl in Hnew. destruct (Validate _ c) as [[e|]|e|] eqn:Hv; try done.
    simpl in Hnew. by injection Hnew as <-. }
  split; [done|]. intros t Ht%elem_of_ResourceTypes.
  apply Validate_None in Hval as (descs & Hc & Hall).
  unfold getSupported. rewrite Hc. simpl.
  destruct (getSupported_range_cases descs t) as [(a & -> & _ & Ha)|[_ Hno]].
  - by exists a.
  - destruct Hno. by apply Hall.
Qed.

Lemma NewFilter_types_supported_witness :
  NewFilter memFs memUnmarshal "config.yml" mockAWSClient = Ret f ∧
  Validate f mockAWSClient = Ret None ∧
  ∀ resType, resType ∈ ResourceTypes f →
    ∃ a, getSupported resType mockAWSClient = Ret (a, None) ∧
         TerraformType a = resType.
Proof.
  assert (Hnew : NewFilter memFs memUnmarshal "config.yml" mockAWSClient = Ret f)
    by (vm_compute; reflexivity).
  split; [exact Hnew|].
  exact (NewFilter_types_supported memFs memUnmarshal "config.yml"
           mockAWSClient f Hnew).
Defined.

(** ** The filter, whatever the order of the patterns *)

(** X11: the range over the tag patterns visits them in no fixed order.  In
    whatever order the loop of [matchTags] meets them, it returns what
    [matchTags] returns. *)
Theorem matchTags_any_order `{Regexp} fl res kvs :
  Tags (cfgEntryOf fl res) ≠ ∅ →
  kvs ≡ₚ map_to_list (Tags (cfgEntryOf fl res)) →
  matchTags_range kvs res = matchTags fl res.
Proof.
  intros Htags Hperm. rewrite matchTags_cases. simpl.
  rewrite decide_False by done. rewrite <- matchTags_range_verdict.
  by apply matchTags_range_Permutation.
Qed.

Lemma matchTags_any_order_witness :
  Tags (cfgEntryOf f (filterable instanceType "i-1" (Some fooBar))) ≠ ∅ ∧
  reverse (map_to_list (Tags instanceEntry)) ≡ₚ
    map_to_list (Tags (cfgEntryOf f (filterable instanceType "i-1" (Some fooBar)))) ∧
  @matchTags_range goFragment (reverse (map_to_list (Tags instanceEntry)))
     (filterable instanceType "i-1" (Some fooBar)) =
  @matchTags goFragment f (filterable instanceType "i-1" (Some fooBar)).
Proof.
  assert (Htags :
    Tags (cfgEntryOf f (filterable instanceType "i-1" (Some fooBar))) ≠ ∅).
  { intros Hempty. apply (f_equal (λ m : gmap string string, m !! "foo")) in Hempty.
    vm_compute in Hempty. discriminate Hempty. }
  assert (Hperm : reverse (map_to_list (Tags instanceEntry)) ≡ₚ
    map_to_list (Tags (cfgEntryOf f (filterable instanceType "i-1" (Some fooBar)))))
    by apply reverse_Permutation.
  split; [exact Htags|]. split; [exact Hperm|].
  exact (@matchTags_any_order goFragment f _ _ Htags Hperm).
Defined.

(** X12: when no id entry is null, only the set of the id patterns counts
    for [matchID]: two filters whose entries for the kind of the resource
    list the same patterns, in any order and any number of times, give the
    same result. *)
Theorem matchID_same_patterns `{Regexp} f1 f2 res :
  None ∉ Ids (cfgEntryOf f1 res) →
  (∀ entry, entry ∈ Ids (cfgEntryOf f1 res) ↔ entry ∈ Ids (cfgEntryOf f2 res)) →
  matchID f1 res = matchID f2 res.
Proof.
  intros Hnull1 Hsame.
  assert (Hnull2 : None ∉ Ids (cfgEntryOf f2 res)) by (by rewrite <- Hsame).
  assert (Hsome : ∀ ids : list (option string), None ∉ ids → Forall is_Some ids).
  { intros ids Hno. apply Forall_forall. intros [r|] Hin; [by eexists|done]. }
  rewrite !matchID_cases. simpl.
  rewrite !nullReached_no_null by (by apply Hsome).
  assert (Hnil : Ids (cfgEntryOf f1 res) = [] ↔ Ids (cfgEntryOf f2 res) = []).
  { split; intros Hnil; rewrite Hnil in Hsame.
    - destruct (Ids (cfgEntryOf f2 res)) as [|p l]; [done|].
      destruct (elem_of_nil p) as [Hno _]. destruct Hno. apply Hsame. left.
    - destruct (Ids (cfgEntryOf f1 res)) as [|p l]; [done|].
      destruct (elem_of_nil p) as [Hno _]. destruct Hno. apply Hsame. left. }
  repeat case_decide; try tauto. do 2 f_equal.
  apply eq_true_iff_eq. unfold idVerdict. rewrite !existsb_exists.
  setoid_rewrite <- list_elem_of_In. by setoid_rewrite Hsame.
Qed.

Lemma matchID_same_patterns_witness :
  (None ∉ Ids (cfgEntryOf (onlyIds iamRoleType ["^foo.*"; "bar"]) barFooBaz)) ∧
  (∀ entry,
     entry ∈ Ids (cfgEntryOf (onlyIds iamRoleType ["^foo.*"; "bar"]) barFooBaz) ↔
     entry ∈ Ids (cfgEntryOf (onlyIds iamRoleType ["bar"; "^foo.*"; "bar"]) barFooBaz)) ∧
  @matchID goFragment (onlyIds iamRoleType ["^foo.*"; "bar"]) barFooBaz =
  @matchID goFragment (onlyIds iamRoleType ["bar"; "^foo.*"; "bar"]) barFooBaz.
Proof.
  assert (Hnull :
    None ∉ Ids (cfgEntryOf (onlyIds iamRoleType ["^foo.*"; "bar"]) barFooBaz)).
  { change (None ∉ [Some "^foo.*"; Some "bar"]).
    rewrite !elem_of_cons, elem_of_nil. intros [Hn|[Hn|Hn]];
      [discriminate Hn|discriminate Hn|exact Hn]. }
  assert (Hsame : ∀ entry,
     entry ∈ Ids (cfgEntryOf (onlyIds iamRoleType ["^foo.*"; "bar"]) barFooBaz) ↔
     entry ∈ Ids (cfgEntryOf (onlyIds iamRoleType ["bar"; "^foo.*"; "bar"]) barFooBaz)).
  { intros entry.
    change (entry ∈ [Some "^foo.*"; Some "bar"] ↔
            entry ∈ [Some "bar"; Some "^foo.*"; Some "bar"]).
    rewrite !elem_of_cons, elem_of_nil. tauto. }
  split; [exact Hnull|]. split; [exact Hsame|].
  exact (@matchID_same_patterns goFragment _ _ barFooBaz Hnull Hsame).
Defined.

(** ** What selection grows with *)

Lemma someTagMatches_more_tags `{Regexp} e (tags tags' : gmap string string) :
  tags ⊆ tags' → someTagMatches e tags → someTagMatches e tags'.
Proof.
  intros Hsub (key & regex & tagVal & Hcfg & Hkey & Hm).
  exists key, regex, tagVal. split_and!; [done| |done].
  by eapply lookup_weaken.
Qed.

Lemma someTagMatches_more_patterns `{Regexp} e e' (tags : gmap string string) :
  Tags e ⊆ Tags e' → someTagMatches e tags → someTagMatches e' tags.
Proof.
  intros Hsub (key & regex & tagVal & Hcfg & Hkey & Hm).
  exists key, regex, tagVal. split_and!; [|done..].
  by eapply lookup_weaken.
Qed.

Lemma someIdMatches_more_patterns `{Regexp} e e' id :
  Ids e ⊆ Ids e' → someIdMatches e id → someIdMatches e' id.
Proof. intros Hsub (regex & Hin & Hm). exists regex. split; [by apply Hsub|done]. Qed.

Lemma nullBeforeMatch_null `{Regexp} ids id :
  nullBeforeMatch ids id → None ∈ ids.
Proof. intros (pre & rest & -> & _). apply elem_of_app. right. left. Qed.

(** The three ways of being selected. *)
Lemma selects_true `{Regexp} e res :
  selects e res = true ↔
  (Ids e = [] ∧ Tags e = ∅ ∧ is_Some (rTags res)) ∨
  someIdMatches e (ID res) ∨
  (∃ tags, rTags res = Some tags ∧ someTagMatches e tags).
Proof.
  unfold selects.
  pose proof (idVerdict_true e (ID res)) as Hid.
  pose proof (tagVerdict_true e res) as Htag.
  assert (Hids : someIdMatches e (ID res) → Ids e ≠ []).
  { intros (p & Hin & _) Hnil. rewrite Hnil in Hin. by apply elem_of_nil in Hin. }
  assert (Htags : (∃ tags, rTags res = Some tags ∧ someTagMatches e tags) →
                  Tags e ≠ ∅ ∧ is_Some (rTags res)).
  { intros (tags & Hr & key & regex & ? & Hcfg & _). split; [|by eexists].
    intros Hnil. by rewrite Hnil in Hcfg. }
  split.
  - destruct (rTags res) as [tags|]; repeat case_decide;
      rewrite ?orb_true_iff, ?Hid, ?Htag; intros Hsel; try done.
    + left. split_and!; [done..|by eexists].
    + by right; right.
    + destruct Hsel as [?|?]; [by right; left|done].
    + destruct Hsel as [?|?]; [by right; left|by right; right].
    + by right; left.
  - intros Hcase.
    destruct (rTags res) as [tags|]; repeat case_decide;
      rewrite ?orb_true_iff, ?Hid, ?Htag; try done;
      destruct Hcase as [(? & ? & Hsome)|[Hi|Ht]];
      try done; try (by destruct Hsome); try (by destruct (Hids Hi));
      try (by destruct (Htags Ht) as [? [? ?]]);
      try (by destruct (Htags Ht) as [? ?]); try (by left); try (by right).
Qed.

(** [Matches] returns true when the loop of [matchID] reaches no null entry
    and the resource is selected in one of the three ways. *)
Lemma Matches_true `{Regexp} fl res :
  Matches fl res = Ret true ↔
  ¬ nullBeforeMatch (Ids (cfgEntryOf fl res)) (ID res) ∧
  ((Ids (cfgEntryOf fl res) = [] ∧ Tags (cfgEntryOf fl res) = ∅ ∧
    is_Some (rTags res)) ∨
   someIdMatches (cfgEntryOf fl res) (ID res) ∨
   (∃ tags, rTags res = Some tags ∧ someTagMatches (cfgEntryOf fl res) tags)).
Proof.
  rewrite Matches_cases. simpl. rewrite <- nullReached_spec, <- selects_true.
  destruct (nullReached _ _); split.
  - done.
  - by intros [[] _].
  - intros [= ->]. by split.
  - by intros [_ ->].
Qed.

(** X13: more tags never cost the selection: a resource that is selected is
    still selected when it carries, beside its tags, other tags; and one that
    is selected without a tag map is selected with any tag map. *)
Theorem Matches_more_tags `{Regexp} fl type id tags tags' :
  tagsIncluded tags tags' →
  Matches fl (filterable type id tags) = Ret true →
  Matches fl (filterable type id tags') = Ret true.
Proof.
  intros Hincl. rewrite !Matches_true. unfold cfgEntryOf. simpl.
  intros [Hnull [(Hids & Htags & Hsome)|[Hi|(m & -> & Hm)]]]; (split; [done|]).
  - left. split_and!; [done..|]. destruct Hsome as [m ->].
    by destruct tags'.
  - by right; left.
  - destruct tags' as [m'|]; [|done]. right; right. exists m'.
    split; [done|]. by eapply someTagMatches_more_tags.
Qed.

Lemma Matches_more_tags_witness :
  tagsIncluded (Some fooBar) (Some fooBarEnv) ∧
  @Matches goFragment f (filterable instanceType "i-1" (Some fooBar)) = Ret true ∧
  @Matches goFragment f (filterable instanceType "i-1" (Some fooBarEnv)) = Ret true.
Proof.
  assert (Hincl : tagsIncluded (Some fooBar) (Some fooBarEnv)).
  { apply map_subseteq_spec. intros key val.
    unfold fooBar. rewrite lookup_singleton_Some. intros [<- <-].
    vm_compute. reflexivity. }
  assert (Hsel : @Matches goFragment f
            (filterable instanceType "i-1" (Some fooBar)) = Ret true)
    by (vm_compute; reflexivity).
  split; [exact Hincl|]. split; [exact Hsel|].
  exact (@Matches_more_tags goFragment f instanceType "i-1" _ _ Hincl Hsel).
Defined.

(** X14: more patterns never cost the selection, once there are patterns: if
    the entry of the kind has id or tag patterns and a second filter has, for
    that kind, these patterns and others, none of its id entries null, a
    resource selected by the first filter is selected by the second.  (From
    an entry without patterns, which selects every resource with a tag map,
    a first pattern takes away.) *)
Theorem Matches_more_criteria `{Regexp} f1 f2 res :
  Ids (cfgEntryOf f1 res) ≠ [] ∨ Tags (cfgEntryOf f1 res) ≠ ∅ →
  None ∉ Ids (cfgEntryOf f2 res) →
  Ids (cfgEntryOf f1 res) ⊆ Ids (cfgEntryOf f2 res) →
  Tags (cfgEntryOf f1 res) ⊆ Tags (cfgEntryOf f2 res) →
  Matches f1 res = Ret true → Matches f2 res = Ret true.
Proof.
  intros Hcrit Hnull Hids Htags. rewrite !Matches_true.
  intros [_ Hsel]. split; [by intros ?%nullBeforeMatch_null|].
  destruct Hsel as [(Hi & Ht & _)|[Hi|(m & Hr & Hm)]].
  - by destruct Hcrit.
  - right; left. by eapply someIdMatches_more_patterns.
  - right; right. exists m. split; [done|].
    by eapply someTagMatches_more_patterns.
Qed.

Lemma Matches_more_criteria_witness :
  (Ids (cfgEntryOf (onlyIds vpc ["^foo.*"]) (filterable vpc "foo-lala" None)) ≠ [] ∨
   Tags (cfgEntryOf (onlyIds vpc ["^foo.*"]) (filterable vpc "foo-lala" None)) ≠ ∅) ∧
  (None ∉ Ids (cfgEntryOf f (filterable vpc "foo-lala" None))) ∧
  Ids (cfgEntryOf (onlyIds vpc ["^foo.*"]) (filterable vpc "foo-lala" None)) ⊆
    Ids (cfgEntryOf f (filterable vpc "foo-lala" None)) ∧
  Tags (cfgEntryOf (onlyIds vpc ["^foo.*"]) (filterable vpc "foo-lala" None)) ⊆
    Tags (cfgEntryOf f (filterable vpc "foo-lala" None)) ∧
  @Matches goFragment (onlyIds vpc ["^foo.*"]) (filterable vpc "foo-lala" None) =
    Ret true ∧
  @Matches goFragment f (filterable vpc "foo-lala" None) = Ret true.
Proof.
  assert (Hcrit :
    Ids (cfgEntryOf (onlyIds vpc ["^foo.*"]) (filterable vpc "foo-lala" None)) ≠ [] ∨
    Tags (cfgEntryOf (onlyIds vpc ["^foo.*"]) (filterable vpc "foo-lala" None)) ≠ ∅).
  { left. vm_compute. discriminate. }
  assert (Hnull : None ∉ Ids (cfgEntryOf f (filterable vpc "foo-lala" None))).
  { change (None ∉ [Some "^foo.*"]).
    rewrite elem_of_cons, elem_of_nil. intros [Hn|Hn];
      [discriminate Hn|exact Hn]. }
  assert (Hids :
    Ids (cfgEntryOf (onlyIds vpc ["^foo.*"]) (filterable vpc "foo-lala" None)) ⊆
    Ids (cfgEntryOf f (filterable vpc "foo-lala" None))).
  { change ([Some "^foo.*"] ⊆ [Some "^foo.*"]). intros p Hp. exact Hp. }
  assert (Htags :
    Tags (cfgEntryOf (onlyIds vpc ["^foo.*"]) (filterable vpc "foo-lala" None)) ⊆
    Tags (cfgEntryOf f (filterable vpc "foo-lala" None))).
  { change ((∅ : gmap string string) ⊆ {[ "foo" := "bar" ]}).
    apply map_empty_subseteq. }
  assert (Hsel : @Matches goFragment (onlyIds vpc ["^foo.*"])
            (filterable vpc "foo-lala" None) = Ret true)
    by (vm_compute; reflexivity).
  split; [exact Hcrit|]. split; [exact Hnull|]. split; [exact Hids|].
  split; [exact Htags|]. split; [exact Hsel|].
  exact (@Matches_more_criteria goFragment _ _ _ Hcrit Hnull Hids Htags Hsel).
Defined.

(** The condition of X14 is needed: the entry without patterns selects the
    tagged security group, and a first id pattern takes that away. *)
Lemma first_pattern_narrows :
  @Matches goFragment f
     (filterable securityGroupType "some-id" (Some fooBar)) = Ret true ∧
  @Matches goFragment (onlyIds securityGroupType ["^foo.*"])
     (filterable securityGroupType "some-id" (Some fooBar)) = Ret false.
Proof. by vm_compute. Qed.

(** ** What selection does not look at *)

(** X15: a nil tag map and an empty one count alike once the entry of the
    kind has id or tag patterns; they differ only for an entry without
    patterns. *)
Theorem Matches_nil_or_empty_tags `{Regexp} fl type id :
  Ids (cfgEntryOf fl (filterable type id None)) ≠ [] ∨
  Tags (cfgEntryOf fl (filterable type id None)) ≠ ∅ →
  Matches fl (filterable type id (Some ∅)) = Matches fl (filterable type id None).
Proof.
  intros Hcrit. rewrite !Matches_cases. unfold cfgEntryOf in *. simpl in *.
  set (e := default zeroEntry (cfg fl !! type)) in *.
  assert (Hnone : tagVerdict (map_to_list (Tags e))
                    (filterable type id (Some ∅)) = false).
  { apply not_true_is_false. intros Htrue.
    assert (Hex : ∃ tags, rTags (filterable type id (Some ∅)) = Some tags ∧
                          someTagMatches e tags) by (by apply tagVerdict_true).
    destruct Hex as (tags & [= <-] & key & ? & ? & _ & Hkey & _).
    by rewrite lookup_empty in Hkey. }
  destruct (nullReached _ _); [done|]. f_equal. unfold selects. simpl.
  repeat case_decide; rewrite ?Hnone, ?orb_false_r; try done.
  by destruct Hcrit.
Qed.

Lemma Matches_nil_or_empty_tags_witness :
  (Ids (cfgEntryOf f (filterable iamRoleType "foo-lala" None)) ≠ [] ∨
   Tags (cfgEntryOf f (filterable iamRoleType "foo-lala" None)) ≠ ∅) ∧
  @Matches goFragment f (filterable iamRoleType "foo-lala" (Some ∅)) =
  @Matches goFragment f (filterable iamRoleType "foo-lala" None).
Proof.
  assert (Hcrit :
    Ids (cfgEntryOf f (filterable iamRoleType "foo-lala" None)) ≠ [] ∨
    Tags (cfgEntryOf f (filterable iamRoleType "foo-lala" None)) ≠ ∅).
  { left. vm_compute. discriminate. }
  split; [exact Hcrit|].
  exact (@Matches_nil_or_empty_tags goFragment f iamRoleType "foo-lala" Hcrit).
Defined.

(** X16: with id patterns and no tag patterns for the kind, the tags of the
    resource play no part: whatever the tag map, [Matches] ends as [matchID]
    does, with its verdict when it returns one. *)
Theorem Matches_only_ids_ignores_tags `{Regexp} fl type id tags :
  Ids (cfgEntryOf fl (filterable type id tags)) ≠ [] →
  Tags (cfgEntryOf fl (filterable type id tags)) = ∅ →
  ∀ tags', Matches fl (filterable type id tags') =
           ('(matched, _) ← matchID fl (filterable type id tags); Ret matched).
Proof.
  intros Hids Htags tags'. rewrite matchID_cases, Matches_cases.
  unfold cfgEntryOf in *. simpl in *. rewrite decide_False by done.
  destruct (nullReached _ _); [done|]. simpl. f_equal. unfold selects. simpl.
  destruct tags'; rewrite !decide_False by done;
    rewrite ?decide_True by done; by rewrite ?orb_false_r.
Qed.

Lemma Matches_only_ids_ignores_tags_witness :
  Ids (cfgEntryOf f (filterable iamRoleType "foo-lala" (Some fooBar))) ≠ [] ∧
  Tags (cfgEntryOf f (filterable iamRoleType "foo-lala" (Some fooBar))) = ∅ ∧
  ∀ tags', @Matches goFragment f (filterable iamRoleType "foo-lala" tags') =
           ('(matched, _) ← @matchID goFragment f
                               (filterable iamRoleType "foo-lala" (Some fooBar));
            Ret matched).
Proof.
  assert (Hids :
    Ids (cfgEntryOf f (filterable iamRoleType "foo-lala" (Some fooBar))) ≠ []).
  { vm_compute. discriminate. }
  assert (Htags :
    Tags (cfgEntryOf f (filterable iamRoleType "foo-lala" (Some fooBar))) = ∅)
    by (vm_compute; reflexivity).
  split; [exact Hids|]. split; [exact Htags|].
  exact (@Matches_only_ids_ignores_tags goFragment f iamRoleType "foo-lala"
           (Some fooBar) Hids Htags).
Defined.

(** X17: with tag patterns and no id patterns for the kind, the id of the
    resource plays no part: a resource without a tag map is not selected,
    and one with a tag map gets the verdict of [matchTags], whatever its
    id. *)
Theorem Matches_only_tags_ignores_id `{Regexp} fl type id tags :
  Ids (cfgEntryOf fl (filterable type id (Some tags))) = [] →
  Tags (cfgEntryOf fl (filterable type id (Some tags))) ≠ ∅ →
  (∀ id', Matches fl (filterable type id' None) = Ret false) ∧
  ∃ matched,
    matchTags fl (filterable type id (Some tags)) = Ret (matched, None) ∧
    ∀ id', Matches fl (filterable type id' (Some tags)) = Ret matched.
Proof.
  intros Hids Htags. split.
  - intros id'. rewrite Matches_cases. unfold cfgEntryOf in *. simpl in *.
    rewrite Hids. simpl. unfold selects. simpl. rewrite Hids.
    by rewrite decide_True.
  - rewrite matchTags_cases. simpl. rewrite decide_False by done.
    eexists. split; [done|]. intros id'. rewrite Matches_cases.
    unfold cfgEntryOf in *. simpl in *. rewrite Hids. simpl.
    unfold selects. simpl. rewrite Hids.
    rewrite decide_True by done. by rewrite decide_False.
Qed.

Lemma Matches_only_tags_ignores_id_witness :
  Ids (cfgEntryOf f (filterable instanceType "i-1" (Some fooBar))) = [] ∧
  Tags (cfgEntryOf f (filterable instanceType "i-1" (Some fooBar))) ≠ ∅ ∧
  (∀ id', @Matches goFragment f (filterable instanceType id' None) = Ret false) ∧
  ∃ matched,
    @matchTags goFragment f (filterable instanceType "i-1" (Some fooBar)) =
      Ret (matched, None) ∧
    ∀ id', @Matches goFragment f (filterable instanceType id' (Some fooBar)) =
           Ret matched.
Proof.
  assert (Hids :
    Ids (cfgEntryOf f (filterable instanceType "i-1" (Some fooBar))) = [])
    by (vm_compute; reflexivity).
  assert (Htags :
    Tags (cfgEntryOf f (filterable instanceType "i-1" (Some fooBar))) ≠ ∅).
  { intros Hempty. apply (f_equal (λ m : gmap string string, m !! "foo")) in Hempty.
    vm_compute in Hempty. discriminate Hempty. }
  split; [exact Hids|]. split; [exact Htags|].
  exact (@Matches_only_tags_ignores_id goFragment f instanceType "i-1" fooBar
           Hids Htags).
Defined.

(** ** The selection, in all cases *)

(** X18: [Matches] never reaches [log.Fatal].  It panics exactly when a
    null id entry comes before every id pattern that matches the id.
    Otherwise it returns, and it selects the resource in exactly three
    cases: the entry read for its kind (the zero entry when the kind is
    missing) has no patterns at all and the resource has a tag map; or some
    id pattern of the entry matches the id; or the resource has a tag map
    and some configured key is one of its tags, with a value that matches
    the pattern of the key. *)
Theorem Matches_selected_iff `{Regexp} fl res :
  (nullBeforeMatch (Ids (cfgEntryOf fl res)) (ID res) ∧
   Matches fl res = Panic) ∨
  (¬ nullBeforeMatch (Ids (cfgEntryOf fl res)) (ID res) ∧
   ∃ selected, Matches fl res = Ret selected ∧
     (selected = true ↔
      (Ids (cfgEntryOf fl res) = [] ∧ Tags (cfgEntryOf fl res) = ∅ ∧
       is_Some (rTags res)) ∨
      someIdMatches (cfgEntryOf fl res) (ID res) ∨
      (∃ tags, rTags res = Some tags ∧
               someTagMatches (cfgEntryOf fl res) tags))).
Proof.
  rewrite Matches_cases. simpl.
  destruct (nullReached _ _) eqn:Hnull.
  - left. split; [by apply nullReached_spec|done].
  - right. split; [rewrite <- nullReached_spec; by rewrite Hnull|].
    eexists. split; [done|]. apply selects_true.
Qed.
